(** * SpotifyManager.py: credential store, token authority and playback loop

    A shallow embedding of [SpotifyPodcastFetcher] (src/SpotifyManager.py).

    - JSON values are the Python values [json.load] builds; a dict is a
      finite map from strings.
    - The credentials file is a store holding nothing, something that cannot
      be opened, text that is not JSON, or a parsed document.  What
      [json.dump] writes, [json.load] reads back as the same value, and
      writing the file succeeds.
    - Methods that read or write the file, talk to the remote service or
      print are functions in a state-and-exception monad over [world].
    - The remote service is an arbitrary function from the history of
      requests and the current request to an outcome: a response with a
      status and a body that [response.json()] may or may not decode, or a
      network error.
    - [play_randomly] runs on the asyncio event loop; it is a transition
      system whose actions are "resume [play_randomly]", "resume task i" and
      "somebody edits the credentials file".  A task runs from one
      suspension to the next in one step: [requests.put] blocks the event
      loop, so the only suspensions of [play_episode] are
      [semaphore.acquire()] and [asyncio.sleep(5)].  The semaphore is the
      documented counter: [acquire] takes a unit when there is one and waits
      otherwise, [release] gives one back.  [asyncio.gather] hands the first
      exception of a task to [play_randomly]; nothing of the loop runs after
      that.
    - [random.shuffle] is the Fisher-Yates loop of the standard library,
      over an arbitrary source of random numbers. *)

From Stdlib Require Import ZArith String List Floats.SpecFloat.
From stdpp Require Import gmap strings list fin_maps.

#[local] Set Warnings "-register-all".
#[local] Open Scope string_scope.
#[local] Open Scope list_scope.

(** ** Python values read from JSON *)

Inductive json :=
| JNull
| JBool (b : bool)
| JInt (z : Z)
| JFloat (f : spec_float)
| JStr (s : string)
| JArr (l : list json)
| JObj (m : gmap string json).

(** Python truth value testing, as used by [if x and y] and [not x]. *)
Definition truthy (v : json) : bool :=
  match v with
  | JNull => false
  | JBool b => b
  | JInt z => negb (z =? 0)%Z
  | JFloat (S754_zero _) => false
  | JFloat _ => true
  | JStr s => match s with EmptyString => false | _ => true end
  | JArr l => match l with [] => false | _ => true end
  | JObj m => negb (bool_decide (m = ∅))
  end.

(** ** Exceptions and results *)

Inductive exn :=
| FileNotFoundError (msg : string)
| PermissionError
| JSONDecodeError
| ValueError (msg : string)
| AttributeError
| TypeError
| ConnectionError
| ResponseJSONDecodeError
| TokenFetchFailed (status : Z) (body : json).

Inductive result (A : Type) :=
| Ok (a : A)
| Raise (e : exn).
Arguments Ok {A} a.
Arguments Raise {A} e.

(** The two exception classes named by every [except] clause of the file. *)
Definition is_read_failure (e : exn) : bool :=
  match e with
  | FileNotFoundError _ | JSONDecodeError => true
  | _ => false
  end.

(** [d.get(k, default)]; only dicts have [get]. *)
Definition dict_get (d : json) (k : string) (dflt : json) : result json :=
  match d with
  | JObj m => Ok (default dflt (m !! k))
  | _ => Raise AttributeError
  end.

(** [d.setdefault(k, default)]: the value under [k] and the dict after. *)
Definition dict_setdefault (d : json) (k : string) (dflt : json) : result (json * json) :=
  match d with
  | JObj m =>
      match m !! k with
      | Some v => Ok (v, d)
      | None => Ok (dflt, JObj (<[k := dflt]> m))
      end
  | _ => Raise AttributeError
  end.

(** [d[k] = v] with a string key: only a dict accepts it. *)
Definition dict_setitem (d : json) (k : string) (v : json) : result json :=
  match d with
  | JObj m => Ok (JObj (<[k := v]> m))
  | _ => Raise TypeError
  end.

(** ** The world: credentials file, remote service, standard output *)

Inductive file_state :=
| Missing
| Unreadable
| Garbage (text : string)
| Document (doc : json).

Inductive request :=
| GetMe (token : json)
| PostToken (client_id client_secret : json)
| PutPlay (token episode_id device_id : json).

Record response := { status_code : Z; body : option json }.

Inductive http_outcome :=
| Resp (r : response)
| NetErr.

Inductive line :=
| OutReadError
| OutDisabled
| OutPlaying (episode_id : json)
| OutFinished (episode_id : json)
| OutFailed (episode_id body : json).

(** [calls] and [stdout] keep the newest entry first. *)
Record world := {
  file : file_state;
  calls : list request;
  stdout : list line
}.

Definition M (A : Type) : Type := world -> result A * world.

Definition ret {A} (a : A) : M A := fun w => (Ok a, w).
Definition raise {A} (e : exn) : M A := fun w => (Raise e, w).
Definition bind {A B} (m : M A) (k : A -> M B) : M B :=
  fun w => match m w with
           | (Ok a, w') => k a w'
           | (Raise e, w') => (Raise e, w')
           end.
Definition catch {A} (m : M A) (h : exn -> M A) : M A :=
  fun w => match m w with
           | (Ok a, w') => (Ok a, w')
           | (Raise e, w') => h e w'
           end.
Definition lift {A} (r : result A) : M A := fun w => (r, w).

Notation "'do' x <- m ; k" := (bind m (fun x => k))
  (at level 10, x name, m at level 100, k at level 200).
Notation "m ;; k" := (bind m (fun _ => k))
  (at level 100, k at level 200, right associativity).

(** [with open(f, 'r') as file: json.load(file)] *)
Definition read_json : M json :=
  fun w => match file w with
           | Missing => (Raise (FileNotFoundError "No such file or directory"), w)
           | Unreadable => (Raise PermissionError, w)
           | Garbage _ => (Raise JSONDecodeError, w)
           | Document d => (Ok d, w)
           end.

(** [with open(f, 'w') as file: json.dump(credentials, file, indent=4)] *)
Definition write_json (d : json) : M unit :=
  fun w => (Ok tt, {| file := Document d; calls := calls w; stdout := stdout w |}).

Definition print (l : line) : M unit :=
  fun w => (Ok tt, {| file := file w; calls := calls w; stdout := l :: stdout w |}).

(** [response.json()] *)
Definition response_json (r : response) : result json :=
  match body r with
  | Some j => Ok j
  | None => Raise ResponseJSONDecodeError
  end.

Section Remote.

(** The remote service: what it answers to a request after a history. *)
Variable remote : list request -> request -> http_outcome.

(** [requests.get], [requests.post], [requests.put] *)
Definition http (rq : request) : M response :=
  fun w =>
    let w' := {| file := file w; calls := rq :: calls w; stdout := stdout w |} in
    match remote (calls w) rq with
    | Resp r => (Ok r, w')
    | NetErr => (Raise ConnectionError, w')
    end.

(** [credentials.get("spotify", {}).get(key, default)] *)
Definition spotify_get (credentials : json) (key : string) (dflt : json) : result json :=
  match dict_get credentials "spotify" (JObj ∅) with
  | Ok section => dict_get section key dflt
  | Raise e => Raise e
  end.

Definition config_message : string := "Credentials file not found or invalid JSON format.".
Definition missing_message : string := "Missing required fields in credentials file.".

Record client_credentials := {
  client_id : json;
  client_secret : json;
  podcast_id : json;
  episode_ids : json;
  device_id : json
}.

Definition reraise_config {A} (e : exn) : M A :=
  if is_read_failure e then raise (FileNotFoundError config_message) else raise e.

Definition load_client_credentials : M client_credentials :=
  catch
    (do credentials <- read_json;
     do cid <- lift (spotify_get credentials "client_id" JNull);
     do csec <- lift (spotify_get credentials "client_secret" JNull);
     do pid <- lift (spotify_get credentials "podcast_id" JNull);
     do eps <- lift (spotify_get credentials "episode_ids" (JArr []));
     do dev <- lift (spotify_get credentials "device_id" JNull);
     if truthy cid && truthy csec && truthy pid && truthy eps && truthy dev
     then ret {| client_id := cid; client_secret := csec; podcast_id := pid;
                 episode_ids := eps; device_id := dev |}
     else raise (ValueError missing_message))
    reraise_config.

Definition is_token_valid (token : json) : M bool :=
  do r <- http (GetMe token);
  ret (status_code r =? 200)%Z.

Definition update_credentials_file (access_token : json) : M unit :=
  do credentials <- catch read_json
                      (fun e => if is_read_failure e then ret (JObj ∅) else raise e);
  do sd <- lift (dict_setdefault credentials "spotify" (JObj ∅));
  do section <- lift (dict_setitem (fst sd) "access_token" access_token);
  (* the dict that was assigned to is the very object stored under "spotify" *)
  do credentials <- lift (dict_setitem (snd sd) "spotify" section);
  write_json credentials.

Definition request_new_token (self : client_credentials) : M json :=
  do r <- http (PostToken (client_id self) (client_secret self));
  if negb (status_code r =? 200)%Z
  then do j <- lift (response_json r);
       raise (TokenFetchFailed (status_code r) j)
  else do j <- lift (response_json r);
       do access_token <- lift (dict_get j "access_token" JNull);
       update_credentials_file access_token;;
       ret access_token.

(** The [try] block of [get_access_token]: [Some t] when it returns [t],
    [None] when control falls through to the request of a new token. *)
Definition cached_valid_token : M (option json) :=
  catch
    (do credentials <- read_json;
     do access_token <- lift (spotify_get credentials "access_token" JNull);
     if truthy access_token
     then do valid <- is_token_valid access_token;
          ret (if valid then Some access_token else None)
     else ret None)
    reraise_config.

Definition get_access_token (self : client_credentials) : M json :=
  do cached <- cached_valid_token;
  match cached with
  | Some t => ret t
  | None => request_new_token self
  end.

Definition is_enabled : M json :=
  catch
    (do credentials <- read_json;
     lift (spotify_get credentials "enabled" (JBool false)))
    (fun e => if is_read_failure e
              then print OutReadError;; ret (JBool false)
              else raise e).

Record fetcher := {
  self_credentials : client_credentials;
  access_token : json
}.

(** [SpotifyPodcastFetcher.__init__] *)
Definition init : M fetcher :=
  do c <- load_client_credentials;
  do t <- get_access_token c;
  ret {| self_credentials := c; access_token := t |}.

End Remote.

(** ** random.shuffle *)

(** [x[i], x[j] = x[j], x[i]] *)
Definition swap {A} (x : list A) (i j : nat) : list A :=
  match x !! i, x !! j with
  | Some a, Some b => <[j := a]> (<[i := b]> x)
  | _, _ => x
  end.

(** [randbelow(n)] drawn from the source of randomness [rand]. *)
Definition randbelow (rand : nat -> nat) (n : nat) : nat := rand n mod n.

(** [for i in reversed(range(1, len(x))): j = randbelow(i + 1); swap] *)
Fixpoint shuffle_from {A} (rand : nat -> nat) (i : nat) (x : list A) : list A :=
  match i with
  | 0 => x
  | S i' => shuffle_from rand i' (swap x i (randbelow rand (i + 1)))
  end.

Definition shuffle {A} (rand : nat -> nat) (x : list A) : list A :=
  shuffle_from rand (length x - 1) x.

(** ** The playback loop on the event loop *)

(** Where a [play_episode] task stands: not yet run, suspended in
    [semaphore.acquire()], suspended in [asyncio.sleep(5)] while holding
    the semaphore, returned, or ended by an exception. *)
Inductive task_pc :=
| Created
| Waiting
| Sleeping
| Finished
| Failed (e : exn).

Record task := { t_episode : json; t_pc : task_pc }.

(** Where [play_randomly] stands: at the head of [while True], suspended in
    [await asyncio.gather], returned after [break], or ended by an
    exception. *)
Inductive main_pc :=
| AtLoop
| AtGather
| Returned
| Raised (e : exn).

(** What happened, tagged with the iteration of the loop (and the index
    of the task in [tasks]). *)
Inductive event :=
| EvCheck (c : nat)
| EvShuffle (c : nat)
| EvAcquire (c i : nat)
| EvPut (c i : nat) (episode_id : json)
| EvRelease (c i : nat)
| EvEnd (c i : nat).

Record sched := {
  st_world : world;
  st_episodes : list json;
  st_value : Z;
  st_main : main_pc;
  st_cycle : nat;
  st_tasks : list task;
  st_failure : option exn;
  st_trace : list event
}.

Definition set_world (w : world) (st : sched) : sched :=
  {| st_world := w; st_episodes := st_episodes st; st_value := st_value st;
     st_main := st_main st; st_cycle := st_cycle st; st_tasks := st_tasks st;
     st_failure := st_failure st; st_trace := st_trace st |}.

Definition set_value (v : Z) (st : sched) : sched :=
  {| st_world := st_world st; st_episodes := st_episodes st; st_value := v;
     st_main := st_main st; st_cycle := st_cycle st; st_tasks := st_tasks st;
     st_failure := st_failure st; st_trace := st_trace st |}.

Definition set_main (m : main_pc) (st : sched) : sched :=
  {| st_world := st_world st; st_episodes := st_episodes st; st_value := st_value st;
     st_main := m; st_cycle := st_cycle st; st_tasks := st_tasks st;
     st_failure := st_failure st; st_trace := st_trace st |}.

Definition with_pc (pc : task_pc) (t : task) : task :=
  {| t_episode := t_episode t; t_pc := pc |}.

Definition set_pc (i : nat) (pc : task_pc) (st : sched) : sched :=
  {| st_world := st_world st; st_episodes := st_episodes st; st_value := st_value st;
     st_main := st_main st; st_cycle := st_cycle st;
     st_tasks := alter (with_pc pc) i (st_tasks st);
     st_failure := st_failure st; st_trace := st_trace st |}.

(** The gather future keeps the first exception it is given. *)
Definition set_failure (e : exn) (st : sched) : sched :=
  {| st_world := st_world st; st_episodes := st_episodes st; st_value := st_value st;
     st_main := st_main st; st_cycle := st_cycle st; st_tasks := st_tasks st;
     st_failure := match st_failure st with Some e0 => Some e0 | None => Some e end;
     st_trace := st_trace st |}.

Definition log (ev : event) (st : sched) : sched :=
  {| st_world := st_world st; st_episodes := st_episodes st; st_value := st_value st;
     st_main := st_main st; st_cycle := st_cycle st; st_tasks := st_tasks st;
     st_failure := st_failure st; st_trace := ev :: st_trace st |}.

Definition set_file (f : file_state) (w : world) : world :=
  {| file := f; calls := calls w; stdout := stdout w |}.

Definition semaphore_message : string := "Semaphore initial value must be >= 0".

Inductive body_outcome :=
| AtSleep
| Completed.

Definition ended (pc : task_pc) : bool :=
  match pc with
  | Finished | Failed _ => true
  | _ => false
  end.

Section Scheduler.

Variable remote : list request -> request -> http_outcome.

(** [self.headers] carries the token, [self.device_id] the device. *)
Variable self : fetcher.

(** [requests.put(url, headers=self.headers, json=data)] *)
Definition play_request (episode_id : json) : request :=
  PutPlay (access_token self) episode_id (device_id (self_credentials self)).

(** The body of [async with semaphore:] up to its first suspension. *)
Definition play_episode_body (episode_id : json) : M body_outcome :=
  do r <- http remote (play_request episode_id);
  if (status_code r =? 204)%Z
  then print (OutPlaying episode_id);; ret AtSleep
  else do j <- lift (response_json r);
       print (OutFailed episode_id j);; ret Completed.

(** [semaphore.release()], run by [__aexit__], and the end of the task. *)
Definition release_and_end (i : nat) (pc : task_pc) (st : sched) : sched :=
  log (EvEnd (st_cycle st) i)
    (log (EvRelease (st_cycle st) i)
       (set_pc i pc (set_value (st_value st + 1) st))).

(** Task [i] right after [semaphore.acquire()] let it through: one unit
    taken, and the play command about to be sent. *)
Definition entered (i : nat) (episode_id : json) (st : sched) : sched :=
  log (EvPut (st_cycle st) i episode_id)
    (log (EvAcquire (st_cycle st) i) (set_value (st_value st - 1) st)).

(** Task [i] got through [semaphore.acquire()] and runs on to its next
    suspension: the blocking [requests.put] and what follows it. *)
Definition enter (i : nat) (episode_id : json) (st : sched) : sched :=
  match play_episode_body episode_id (st_world st) with
  | (Ok AtSleep, w) =>
      set_pc i Sleeping (set_world w (entered i episode_id st))
  | (Ok Completed, w) =>
      release_and_end i Finished (set_world w (entered i episode_id st))
  | (Raise e, w) =>
      set_failure e (release_and_end i (Failed e) (set_world w (entered i episode_id st)))
  end.

(** After [asyncio.sleep(5)]: the last print, then [__aexit__]. *)
Definition wake (i : nat) (episode_id : json) (st : sched) : sched :=
  match print (OutFinished episode_id) (st_world st) with
  | (_, w) => release_and_end i Finished (set_world w st)
  end.

(** [play_episode(episode_id, semaphore)] running as task [i], resumed once
    by the event loop: from its start or from [semaphore.acquire()] it goes
    on when the semaphore has a unit left, and from [asyncio.sleep(5)] it
    runs to its end. *)
Definition play_episode (i : nat) (st : sched) : option sched :=
  match st_main st with
  | AtGather =>
      match st_tasks st !! i with
      | Some t =>
          match t_pc t with
          | Created =>
              if (0 <? st_value st)%Z then Some (enter i (t_episode t) st)
              else Some (set_pc i Waiting st)
          | Waiting =>
              if (0 <? st_value st)%Z then Some (enter i (t_episode t) st)
              else None
          | Sleeping => Some (wake i (t_episode t) st)
          | Finished | Failed _ => None
          end
      | None => None
      end
  | _ => None
  end.

(** [random.shuffle(self.episode_ids)], one task per episode in the new
    order, and [play_randomly] suspended in [gather]. *)
Definition started (rand : nat -> nat) (w : world) (st : sched) : sched :=
  let eps := shuffle rand (st_episodes st) in
  {| st_world := w; st_episodes := eps; st_value := st_value st;
     st_main := AtGather; st_cycle := st_cycle st;
     st_tasks := map (fun ep => {| t_episode := ep; t_pc := Created |}) eps;
     st_failure := None;
     st_trace := EvShuffle (st_cycle st) :: EvCheck (st_cycle st) :: st_trace st |}.

(** [gather] has returned: back to the head of [while True]. *)
Definition advanced (st : sched) : sched :=
  {| st_world := st_world st; st_episodes := st_episodes st;
     st_value := st_value st; st_main := AtLoop;
     st_cycle := S (st_cycle st); st_tasks := st_tasks st;
     st_failure := None; st_trace := st_trace st |}.

(** One iteration of [while True] up to [await asyncio.gather]. *)
Definition loop_head (rand : nat -> nat) (st : sched) : sched :=
  match is_enabled (st_world st) with
  | (Raise e, w) => set_main (Raised e) (set_world w (log (EvCheck (st_cycle st)) st))
  | (Ok v, w) =>
      if negb (truthy v)
      then match print OutDisabled w with
           | (_, w') => set_main Returned (set_world w' (log (EvCheck (st_cycle st)) st))
           end
      else started rand w st
  end.

(** [await asyncio.gather] returns once every task has returned,
    and raises the first exception as soon as a task has raised one. *)
Definition gather_resume (st : sched) : option sched :=
  match st_failure st with
  | Some e => Some (set_main (Raised e) st)
  | None =>
      if forallb (fun t => ended (t_pc t)) (st_tasks st)
      then Some (advanced st)
      else None
  end.

(** The event loop resumes [play_randomly]. *)
Definition main_step (rand : nat -> nat) (st : sched) : option sched :=
  match st_main st with
  | AtLoop => Some (loop_head rand st)
  | AtGather => gather_resume st
  | Returned | Raised _ => None
  end.

Inductive action :=
| Main (rand : nat -> nat)
| Task (i : nat)
| Edit (f : file_state).

Definition step (a : action) (st : sched) : option sched :=
  match a with
  | Main rand => main_step rand st
  | Task i => play_episode i st
  | Edit f => Some (set_world (set_file f (st_world st)) st)
  end.

(** [play_randomly(max_concurrent)] up to the head of the loop:
    [asyncio.Semaphore(max_concurrent)] refuses a negative value. *)
Definition play_randomly (max_concurrent : Z) (w : world) (eps : list json) : sched :=
  {| st_world := w; st_episodes := eps; st_value := max_concurrent;
     st_main := if (max_concurrent <? 0)%Z then Raised (ValueError semaphore_message)
                else AtLoop;
     st_cycle := 0; st_tasks := []; st_failure := None; st_trace := [] |}.

Fixpoint run (acts : list action) (st : sched) : option sched :=
  match acts with
  | [] => Some st
  | a :: acts' =>
      match step a st with
      | Some st' => run acts' st'
      | None => None
      end
  end.

(** The states the loop can be in, under any schedule, any randomness and
    any editing of the file. *)
Inductive reachable (max_concurrent : Z) (w : world) (eps : list json) : sched -> Prop :=
| reach_start : reachable max_concurrent w eps (play_randomly max_concurrent w eps)
| reach_step a st st' :
    reachable max_concurrent w eps st ->
    step a st = Some st' ->
    reachable max_concurrent w eps st'.

End Scheduler.

(** ** Measures on tasks and traces *)

(** A task holds a unit of the semaphore while it sleeps inside
    [async with semaphore]. *)
Definition holds (pc : task_pc) : Z :=
  match pc with
  | Sleeping => 1
  | _ => 0
  end.

(** The tasks past the admission gate. *)
Fixpoint holding (ts : list task) : Z :=
  match ts with
  | [] => 0
  | t :: ts' => holds (t_pc t) + holding ts'
  end.

(** A task has called [requests.put] once it got past [acquire]. *)
Definition has_put (pc : task_pc) : bool :=
  match pc with
  | Sleeping | Finished | Failed _ => true
  | Created | Waiting => false
  end.

Fixpoint dispatched (ts : list task) : list json :=
  match ts with
  | [] => []
  | t :: ts' =>
      if has_put (t_pc t) then t_episode t :: dispatched ts' else dispatched ts'
  end.

(** How many more times a task can be resumed, at most. *)
Definition weight (pc : task_pc) : nat :=
  match pc with
  | Created => 3
  | Waiting => 2
  | Sleeping => 1
  | Finished | Failed _ => 0
  end.

Fixpoint remaining (ts : list task) : nat :=
  match ts with
  | [] => 0
  | t :: ts' => weight (t_pc t) + remaining ts'
  end.

Definition cycle_of (ev : event) : nat :=
  match ev with
  | EvCheck c | EvShuffle c | EvAcquire c _ | EvPut c _ _
  | EvRelease c _ | EvEnd c _ => c
  end.

(** Acquisitions minus releases: the play commands in flight after the
    events of [tr] (newest first). *)
Fixpoint held (tr : list event) : Z :=
  match tr with
  | [] => 0
  | EvAcquire _ _ :: tr' => held tr' + 1
  | EvRelease _ _ :: tr' => held tr' - 1
  | _ :: tr' => held tr'
  end.

(** The episodes of the play commands sent in iteration [c]. *)
Fixpoint puts_of (c : nat) (tr : list event) : list json :=
  match tr with
  | [] => []
  | EvPut c' _ ep :: tr' => if decide (c' = c) then ep :: puts_of c tr' else puts_of c tr'
  | _ :: tr' => puts_of c tr'
  end.

(** The episodes of all the play commands sent, newest first. *)
Fixpoint all_puts (tr : list event) : list json :=
  match tr with
  | [] => []
  | EvPut _ _ ep :: tr' => ep :: all_puts tr'
  | _ :: tr' => all_puts tr'
  end.

Definition is_main (a : action) : bool :=
  match a with
  | Main _ => true
  | _ => false
  end.

Fixpoint task_moves (acts : list action) : nat :=
  match acts with
  | [] => 0
  | Task _ :: acts' => S (task_moves acts')
  | _ :: acts' => task_moves acts'
  end.

(** Every play command is answered, and an answer other than 204 carries a
    body that [response.json()] can decode. *)
Definition decodable (remote : list request -> request -> http_outcome)
    (self : fetcher) : Prop :=
  forall h ep,
    match remote h (play_request self ep) with
    | Resp r => status_code r = 204%Z \/ is_Some (body r)
    | NetErr => False
    end.

(** The episode whose play command task [i] sends if it is resumed now:
    the task has not got through the semaphore yet and a unit is free. *)
Definition about_to_put (i : nat) (st : sched) : option json :=
  match st_main st, st_tasks st !! i with
  | AtGather, Some t =>
      if negb (has_put (t_pc t)) && (0 <? st_value st)%Z
      then Some (t_episode t) else None
  | _, _ => None
  end.

(** The play command that the action [a] sends from [st], if it sends one,
    is answered with 204 or with a body that [response.json()] can decode. *)
Definition well_answered_now (remote : list request -> request -> http_outcome)
    (self : fetcher) (a : action) (st : sched) : Prop :=
  match a with
  | Task i =>
      match about_to_put i st with
      | Some ep =>
          match remote (calls (st_world st)) (play_request self ep) with
          | Resp r => status_code r = 204%Z \/ is_Some (body r)
          | NetErr => False
          end
      | None => True
      end
  | _ => True
  end.

(** Every play command sent along the actions [acts] from [st] is so
    answered. *)
Fixpoint well_answered (remote : list request -> request -> http_outcome)
    (self : fetcher) (acts : list action) (st : sched) : Prop :=
  match acts with
  | [] => True
  | a :: acts' =>
      well_answered_now remote self a st /\
      match step remote self a st with
      | Some st' => well_answered remote self acts' st'
      | None => True
      end
  end.

(** ** Properties of traces *)

(** After no prefix of the history were more than [cap] play commands in
    flight. *)
Definition never_exceeds (cap : Z) (tr : list event) : Prop :=
  forall newer older, tr = newer ++ older -> (held older <= cap)%Z.

(** Every play command comes right after its task got through the
    semaphore, and fewer than [cap] commands were in flight at that time. *)
Definition put_after_acquire (cap : Z) (tr : list event) : Prop :=
  forall newer c i ep older,
    tr = newer ++ EvPut c i ep :: older ->
    exists older', older = EvAcquire c i :: older' /\ (held older' < cap)%Z.

(** Whatever happens in iteration [n + 1] happens after each of the
    [n_tasks] tasks of iteration [n] has ended. *)
Definition barrier_respected (n_tasks : nat) (tr : list event) : Prop :=
  forall newer ev older n i,
    tr = newer ++ ev :: older ->
    cycle_of ev = S n ->
    i < n_tasks ->
    EvEnd n i ∈ older.

(** ** Vocabulary of the statements *)

(** The value stored under [key] in the "spotify" section, if any. *)
Definition field (d : json) (key : string) : option json :=
  match d with
  | JObj m =>
      match m !! "spotify" with
      | Some (JObj s) => s !! key
      | _ => None
      end
  | _ => None
  end.

(** The value stored under a top-level key, if any. *)
Definition top (d : json) (key : string) : option json :=
  match d with
  | JObj m => m !! key
  | _ => None
  end.

(** A JSON object whose "spotify" entry, when there is one, is an object. *)
Definition well_formed (d : json) : bool :=
  match d with
  | JObj m =>
      match m !! "spotify" with
      | None | Some (JObj _) => true
      | Some _ => false
      end
  | _ => false
  end.

Definition required_fields : list string :=
  ["client_id"; "client_secret"; "podcast_id"; "episode_ids"; "device_id"].

(** Absent, or present with a value Python takes for false
    (the empty string, the empty list, null, ...). *)
Definition missing_or_empty (d : json) (key : string) : bool :=
  match field d key with
  | None => true
  | Some v => negb (truthy v)
  end.

(** What [update_credentials_file] writes for a readable document. *)
Definition with_token (d tok : json) : json :=
  match d with
  | JObj m =>
      match m !! "spotify" with
      | Some (JObj s) => JObj (<["spotify" := JObj (<["access_token" := tok]> s)]> m)
      | _ => JObj (<["spotify" := JObj {["access_token" := tok]}]> m)
      end
  | _ => d
  end.

(** The number of token exchanges among the requests sent. *)
Definition is_exchange (rq : request) : bool :=
  match rq with
  | PostToken _ _ => true
  | _ => false
  end.

Definition exchanges (cs : list request) : nat :=
  length (filter (fun rq => is_exchange rq = true) cs).

(** ** Sample inputs *)

Definition sample_section : gmap string json :=
  {[ "client_id" := JStr "id"; "client_secret" := JStr "secret";
     "podcast_id" := JStr "show"; "episode_ids" := JArr [JStr "a"; JStr "b"; JStr "c"];
     "device_id" := JStr "dev"; "access_token" := JStr "old"; "enabled" := JBool true ]}.

Definition sample_doc : json := JObj {[ "spotify" := JObj sample_section ]}.

Definition world_of (f : file_state) : world :=
  {| file := f; calls := []; stdout := [] |}.

Definition sample_self : client_credentials :=
  {| client_id := JStr "id"; client_secret := JStr "secret"; podcast_id := JStr "show";
     episode_ids := JArr [JStr "a"; JStr "b"; JStr "c"]; device_id := JStr "dev" |}.

Definition json_reply (status : Z) (j : json) : http_outcome :=
  Resp {| status_code := status; body := Some j |}.

(** A service that rejects every probe and grants the token "fresh". *)
Definition remote_granting (h : list request) (rq : request) : http_outcome :=
  match rq with
  | GetMe _ => json_reply 401 (JObj {[ "error" := JStr "expired" ]})
  | PostToken _ _ => json_reply 200 (JObj {[ "access_token" := JStr "fresh" ]})
  | PutPlay _ _ _ => Resp {| status_code := 204; body := None |}
  end.

(** A service that rejects every probe and every exchange. *)
Definition remote_refusing (h : list request) (rq : request) : http_outcome :=
  match rq with
  | PutPlay _ _ _ => Resp {| status_code := 204; body := None |}
  | _ => json_reply 400 (JObj {[ "error" := JStr "invalid_client" ]})
  end.

(** A service that accepts the probe and refuses every play command with
    status 403 and a JSON body. *)
Definition remote_forbidding (h : list request) (rq : request) : http_outcome :=
  match rq with
  | PutPlay _ _ _ => json_reply 403 (JObj {[ "error" := JStr "premium required" ]})
  | _ => json_reply 200 (JObj {[ "access_token" := JStr "fresh" ]})
  end.

(** A service whose gateway answers every play command with status 502 and
    a body that is not JSON. *)
Definition remote_gateway (h : list request) (rq : request) : http_outcome :=
  match rq with
  | PutPlay _ _ _ => Resp {| status_code := 502; body := None |}
  | _ => json_reply 200 (JObj {[ "access_token" := JStr "fresh" ]})
  end.

(** A service whose gateway answers the play command for "a" with status
    502 and a body that is not JSON, and accepts every other play command. *)
Definition remote_flaky (h : list request) (rq : request) : http_outcome :=
  match rq with
  | PutPlay _ (JStr s) _ =>
      if String.eqb s "a" then Resp {| status_code := 502; body := None |}
      else Resp {| status_code := 204; body := None |}
  | PutPlay _ _ _ => Resp {| status_code := 204; body := None |}
  | _ => json_reply 200 (JObj {[ "access_token" := JStr "fresh" ]})
  end.

Definition sample_fetcher : fetcher :=
  {| self_credentials := sample_self; access_token := JStr "fresh" |}.

Definition sample_episodes : list json := [JStr "a"; JStr "b"; JStr "c"].

Definition sample_world : world := world_of (Document sample_doc).

(** The same document with the kill switch thrown. *)
Definition disabled_doc : json :=
  JObj {[ "spotify" := JObj (<["enabled" := JBool false]> sample_section) ]}.

Definition fixed_rand (n : nat) : nat := 1.

(** The state after the actions [acts], from the start of
    [play_randomly(2)] on the sample episodes; the start itself when the
    actions cannot be taken. *)
Definition state_after (remote : list request -> request -> http_outcome)
    (acts : list action) : sched :=
  default (play_randomly 2 sample_world sample_episodes)
          (run remote sample_fetcher acts (play_randomly 2 sample_world sample_episodes)).

(** Two tasks get through the semaphore, the third waits, the first wakes
    up, then the third gets through. *)
Definition sample_schedule : list action :=
  [Main fixed_rand; Task 0; Task 1; Task 2; Task 0; Task 2].

(** The rest of the first iteration, and the start of the second. *)
Definition sample_two_cycles : list action :=
  sample_schedule ++ [Task 1; Task 2; Main fixed_rand; Main fixed_rand; Task 0].

(** ** Further vocabulary and sample inputs *)

Definition is_edit (a : action) : bool :=
  match a with
  | Edit _ => true
  | _ => false
  end.

(** The record [load_client_credentials] returns for a document whose five
    required fields are there. *)
Definition credentials_of (d : json) : client_credentials :=
  {| client_id := default JNull (field d "client_id");
     client_secret := default JNull (field d "client_secret");
     podcast_id := default JNull (field d "podcast_id");
     episode_ids := default (JArr []) (field d "episode_ids");
     device_id := default JNull (field d "device_id") |}.

(** A service that accepts every probe and every play command. *)
Definition remote_accepting (h : list request) (rq : request) : http_outcome :=
  match rq with
  | GetMe _ => json_reply 200 (JObj {[ "id" := JStr "me" ]})
  | PostToken _ _ => json_reply 200 (JObj {[ "access_token" := JStr "fresh" ]})
  | PutPlay _ _ _ => Resp {| status_code := 204; body := None |}
  end.

(** No network. *)
Definition remote_offline (h : list request) (rq : request) : http_outcome := NetErr.

(** A token endpoint whose answers are not JSON. *)
Definition remote_garbled (h : list request) (rq : request) : http_outcome :=
  Resp {| status_code := 200; body := None |}.

(** The state after the actions [acts], from the start of
    [play_randomly(max_concurrent)] on the sample episodes. *)
Definition state_with (max_concurrent : Z)
    (remote : list request -> request -> http_outcome)
    (acts : list action) : sched :=
  default (play_randomly max_concurrent sample_world sample_episodes)
          (run remote sample_fetcher acts
               (play_randomly max_concurrent sample_world sample_episodes)).

(** * Credential store *)

Ltac unfold_m :=
  unfold init, load_client_credentials, get_access_token, cached_valid_token,
    request_new_token, update_credentials_file, is_enabled, is_token_valid,
    reraise_config, read_json, write_json, print, http,
    bind, catch, lift, ret, raise in *.

Lemma spotify_get_well_formed d key dflt :
  well_formed d = true ->
  spotify_get d key dflt = Ok (default dflt (field d key)).
Proof.
  unfold well_formed, spotify_get, field, dict_get.
  destruct d as [| | | | | |m]; try discriminate.
  destruct (m !! "spotify") as [[| | | | | |s]|]; try discriminate; intros _; simpl.
  - reflexivity.
  - rewrite lookup_empty. reflexivity.
Qed.

Lemma missing_or_empty_falsy d key dflt :
  missing_or_empty d key = true ->
  truthy dflt = false ->
  truthy (default dflt (field d key)) = false.
Proof.
  unfold missing_or_empty. destruct (field d key) as [v|]; simpl; intros H1 H2.
  - now apply negb_true_iff in H1.
  - exact H2.
Qed.

Section Store.

Variable remote : list request -> request -> http_outcome.

Lemma load_client_credentials_missing_field w d key :
  file w = Document d ->
  well_formed d = true ->
  key ∈ required_fields ->
  missing_or_empty d key = true ->
  load_client_credentials w = (Raise (ValueError missing_message), w).
Proof.
  intros Hf Hwf Hkey Hmiss.
  unfold_m. rewrite Hf.
  rewrite !(spotify_get_well_formed d _ _ Hwf).
  assert (Hfalse : forall dflt, truthy dflt = false ->
                     truthy (default dflt (field d key)) = false)
    by (intros; now apply missing_or_empty_falsy).
  unfold required_fields in Hkey.
  repeat (apply elem_of_cons in Hkey as [-> | Hkey]);
    [ .. | now apply elem_of_nil in Hkey ];
    match goal with
    | |- context [truthy (default ?x (field d ?k))] =>
        rewrite (Hfalse x eq_refl)
    end;
    rewrite ?andb_false_r; reflexivity.
Qed.

(** C5: for a document that is a JSON object with the "spotify" entry
    absent or an object, and from which one of the five required fields is
    absent or has a value Python takes for false, the constructor raises
    [ValueError] (the configuration error of the code) and leaves the world
    as it was: no request is sent, nothing is written or printed. *)
Theorem init_missing_field_fails w d key :
  file w = Document d ->
  well_formed d = true ->
  key ∈ required_fields ->
  missing_or_empty d key = true ->
  init remote w = (Raise (ValueError missing_message), w).
Proof.
  intros Hf Hwf Hkey Hmiss.
  unfold init, bind.
  now rewrite (load_client_credentials_missing_field w d key Hf Hwf Hkey Hmiss).
Qed.

End Store.

Section Persist.

Lemma field_insert_token m s tok key :
  field (JObj (<["spotify" := JObj (<["access_token" := tok]> s)]> m)) key =
  if decide (key = "access_token") then Some tok else s !! key.
Proof.
  unfold field. rewrite lookup_insert_eq.
  destruct (decide (key = "access_token")) as [->|Hne].
  - apply lookup_insert_eq.
  - now apply lookup_insert_ne.
Qed.

Lemma update_credentials_file_document w d tok :
  file w = Document d ->
  well_formed d = true ->
  update_credentials_file tok w = (Ok tt, set_file (Document (with_token d tok)) w).
Proof.
  intros Hf Hwf. unfold_m. rewrite Hf.
  destruct d as [| | | | | |m]; try discriminate. simpl in *.
  destruct (m !! "spotify") as [[| | | | | |s]|] eqn:Hs; try discriminate; simpl.
  - reflexivity.
  - rewrite insert_insert_eq, insert_empty. reflexivity.
Qed.

Lemma with_token_field d tok key :
  well_formed d = true ->
  field (with_token d tok) key =
  if decide (key = "access_token") then Some tok else field d key.
Proof.
  destruct d as [| | | | | |m]; try discriminate. simpl.
  destruct (m !! "spotify") as [[| | | | | |s]|] eqn:Hs; try discriminate; intros _.
  - apply field_insert_token.
  - rewrite <- insert_empty, field_insert_token.
    destruct (decide _); [reflexivity | apply lookup_empty].
Qed.

Lemma with_token_top d tok key :
  key <> "spotify" -> top (with_token d tok) key = top d key.
Proof.
  intros Hne. destruct d as [| | | | | |m]; try reflexivity. simpl.
  destruct (m !! "spotify") as [[| | | | | |s]|]; simpl;
    now rewrite lookup_insert_ne.
Qed.

Lemma with_token_well_formed d tok :
  well_formed d = true -> well_formed (with_token d tok) = true.
Proof.
  destruct d as [| | | | | |m]; try discriminate. simpl.
  destruct (m !! "spotify") as [[| | | | | |s]|]; try discriminate; intros _;
    simpl; now rewrite lookup_insert_eq.
Qed.

Lemma update_credentials_file_ill_formed w d tok :
  file w = Document d ->
  well_formed d = false ->
  exists e, update_credentials_file tok w = (Raise e, w).
Proof.
  intros Hf Hwf. unfold_m. rewrite Hf.
  destruct d as [| | | | | |m]; simpl; eauto.
  simpl in Hwf.
  destruct (m !! "spotify") as [[| | | | | |s]|] eqn:Hs; try discriminate; simpl; eauto.
Qed.

(** C6: whatever document the file holds, after [update_credentials_file]
    the file reads back as a document in which every field of the "spotify"
    section other than access_token (client_id, client_secret, podcast_id,
    episode_ids, device_id and enabled among them) and every other top-level
    entry is as before; when the document is a JSON object whose "spotify"
    entry is absent or an object, the call returns normally and the document
    read back holds the new token under spotify.access_token. *)
Theorem update_credentials_file_frame w d tok :
  file w = Document d ->
  exists res w' d',
    update_credentials_file tok w = (res, w') /\
    read_json w' = (Ok d', w') /\
    (forall key, key <> "access_token" -> field d' key = field d key) /\
    (forall key, key <> "spotify" -> top d' key = top d key) /\
    calls w' = calls w /\ stdout w' = stdout w /\
    (well_formed d = true -> res = Ok tt /\ field d' "access_token" = Some tok).
Proof.
  intros Hf. destruct (well_formed d) eqn:Hwf.
  - exists (Ok tt), (set_file (Document (with_token d tok)) w), (with_token d tok).
    split; [now apply update_credentials_file_document |].
    split; [reflexivity |].
    split; [intros key Hne; rewrite with_token_field by assumption;
            now destruct (decide _) |].
    split; [intros; now apply with_token_top |].
    split; [reflexivity |]. split; [reflexivity |].
    intros _. split; [reflexivity |].
    rewrite with_token_field by assumption. now destruct (decide _).
  - destruct (update_credentials_file_ill_formed w d tok Hf Hwf) as [e He].
    exists (Raise e), w, d. split; [exact He |].
    split; [unfold read_json; now rewrite Hf |].
    repeat split; intros; try reflexivity; discriminate.
Qed.

(** The readers of the other fields cannot tell the difference. *)
Lemma update_credentials_file_readers w d tok :
  file w = Document d ->
  well_formed d = true ->
  forall w', update_credentials_file tok w = (Ok tt, w') ->
  fst (load_client_credentials w') = fst (load_client_credentials w) /\
  fst (is_enabled w') = fst (is_enabled w).
Proof.
  intros Hf Hwf w' Hu.
  rewrite (update_credentials_file_document w d tok Hf Hwf) in Hu.
  injection Hu as <-.
  pose proof (with_token_well_formed d tok Hwf) as Hwf'.
  unfold_m. simpl. rewrite Hf.
  rewrite !(spotify_get_well_formed _ _ _ Hwf), !(spotify_get_well_formed _ _ _ Hwf').
  rewrite !with_token_field by assumption. simpl.
  split; [| reflexivity].
  repeat match goal with
         | |- context [if ?b then _ else _] => destruct b
         end; reflexivity.
Qed.

(** C10: when the file is missing or does not hold JSON,
    [update_credentials_file] returns normally, prints nothing, and the file
    then holds exactly [{"spotify": {"access_token": token}}]. *)
Theorem update_credentials_file_replaces w tok :
  file w = Missing \/ (exists text, file w = Garbage text) ->
  update_credentials_file tok w =
    (Ok tt, set_file (Document (JObj {[ "spotify" := JObj {[ "access_token" := tok ]} ]})) w).
Proof.
  intros [Hf | [text Hf]]; unfold_m; rewrite Hf; simpl;
    unfold set_file; do 3 f_equal;
    rewrite lookup_empty; simpl; rewrite insert_insert_eq;
    rewrite !insert_empty; reflexivity.
Qed.

(** C9, as amended: for a file that is missing or does not hold JSON,
    [is_enabled] returns [False] and prints its error line; for a JSON object
    whose "spotify" entry is absent or an object it returns the value under
    "enabled" ([False] when there is none) and prints nothing; in all these
    cases it raises nothing. *)
Theorem is_enabled_lenient w :
  file w = Missing \/ (exists text, file w = Garbage text) \/
  (exists d, file w = Document d /\ well_formed d = true) ->
  exists v w',
    is_enabled w = (Ok v, w') /\ file w' = file w /\ calls w' = calls w /\
    match file w with
    | Document d => v = default (JBool false) (field d "enabled") /\ stdout w' = stdout w
    | _ => v = JBool false /\ stdout w' = OutReadError :: stdout w
    end.
Proof.
  intros [Hf | [[text Hf] | [d [Hf Hwf]]]]; unfold_m; rewrite Hf; simpl.
  - eexists _, _. repeat split; simpl; auto.
  - eexists _, _. repeat split; simpl; auto.
  - rewrite (spotify_get_well_formed _ _ _ Hwf).
    eexists _, _. repeat split; simpl; auto.
Qed.

End Persist.

(** * Token authority *)

Section Token.

Variable remote : list request -> request -> http_outcome.
Variable self : client_credentials.

Lemma exchanges_cons rq cs :
  exchanges (rq :: cs) = (if is_exchange rq then 1 else 0) + exchanges cs.
Proof.
  unfold exchanges. rewrite filter_cons.
  destruct (is_exchange rq); simpl.
  - destruct (decide (true = true)); [reflexivity | congruence].
  - destruct (decide (false = true)); [discriminate | reflexivity].
Qed.

(** The [try] block of [get_access_token] on a readable document. *)
Lemma cached_valid_token_document w d r :
  file w = Document d ->
  well_formed d = true ->
  let t := default JNull (field d "access_token") in
  (truthy t = true -> remote (calls w) (GetMe t) = Resp r) ->
  cached_valid_token remote w =
    if truthy t
    then (Ok (if (status_code r =? 200)%Z then Some t else None),
          {| file := file w; calls := GetMe t :: calls w; stdout := stdout w |})
    else (Ok None, w).
Proof.
  intros Hf Hwf t Hprobe. unfold_m. rewrite Hf.
  rewrite (spotify_get_well_formed _ _ _ Hwf). fold t.
  destruct (truthy t) eqn:Ht; [| reflexivity].
  rewrite (Hprobe eq_refl). rewrite Hf. reflexivity.
Qed.

Lemma update_credentials_file_keeps tok w :
  calls (snd (update_credentials_file tok w)) = calls w /\
  stdout (snd (update_credentials_file tok w)) = stdout w.
Proof.
  unfold_m.
  assert (Hgo : forall cr : json,
    let m := (do sd <- lift (dict_setdefault cr "spotify" (JObj ∅));
              do section <- lift (dict_setitem (fst sd) "access_token" tok);
              do credentials <- lift (dict_setitem (snd sd) "spotify" section);
              write_json credentials) in
    calls (snd (m w)) = calls w /\ stdout (snd (m w)) = stdout w).
  { intros cr. unfold_m. simpl.
    destruct (dict_setdefault _ _ _) as [[sec cr1]|e]; simpl; [| split; reflexivity].
    destruct (dict_setitem sec _ _) as [sec'|e]; simpl; [| split; reflexivity].
    destruct (dict_setitem cr1 _ _) as [cr'|e]; simpl; split; reflexivity. }
  unfold_m. simpl in Hgo.
  destruct (file w) as [| |text|d]; simpl; try (split; reflexivity); apply Hgo.
Qed.

(** [request_new_token] sends exactly one exchange, whatever comes of it. *)
Lemma request_new_token_calls w :
  exists res w',
    request_new_token remote self w = (res, w') /\
    calls w' = PostToken (client_id self) (client_secret self) :: calls w /\
    stdout w' = stdout w.
Proof.
  unfold request_new_token, http, bind, lift, ret, raise. simpl.
  destruct (remote (calls w) _) as [r|]; [| eexists _, _; repeat split].
  destruct (status_code r =? 200)%Z; simpl.
  - destruct (response_json r) as [j|e]; [| eexists _, _; repeat split].
    destruct (dict_get j "access_token" JNull) as [tok|e];
      [| eexists _, _; repeat split].
    match goal with
    | |- context [update_credentials_file tok ?w1] =>
        destruct (update_credentials_file_keeps tok w1) as [Hc Hs];
        destruct (update_credentials_file tok w1) as [[[]|e] w2]; simpl in *;
        eexists _, _; (split; [reflexivity |]); split; assumption
    end.
  - destruct (response_json r) as [j|e]; eexists _, _; repeat split.
Qed.

Lemma request_new_token_outcome w d r2 :
  file w = Document d ->
  well_formed d = true ->
  let x := PostToken (client_id self) (client_secret self) in
  let w1 := {| file := file w; calls := x :: calls w; stdout := stdout w |} in
  remote (calls w) x = Resp r2 ->
  if (status_code r2 =? 200)%Z
  then forall m, body r2 = Some (JObj m) ->
         let tok := default JNull (m !! "access_token") in
         request_new_token remote self w =
           (Ok tok, set_file (Document (with_token d tok)) w1)
  else exists e, request_new_token remote self w = (Raise e, w1).
Proof.
  intros Hf Hwf x w1 Hr.
  unfold request_new_token, http, bind, lift, ret, raise. fold x. rewrite Hr. fold w1.
  destruct (status_code r2 =? 200)%Z; simpl.
  - intros m Hb. unfold response_json. rewrite Hb. simpl.
    assert (Hf1 : file w1 = Document d) by exact Hf.
    now rewrite (update_credentials_file_document w1 d _ Hf1 Hwf).
  - destruct (response_json r2); eexists; reflexivity.
Qed.

(** C4, as amended: on a readable document, with [t] the cached token.
    No exchange is sent exactly when [t] is there (Python takes it for true)
    and the probe answers 200; [t] is then returned and the file is as it
    was.  Otherwise exactly one exchange is sent; when it answers 200 with a
    JSON object, its access_token is written to the file and returned, the
    write coming first; when it answers another status an exception is
    raised and the file is as it was. *)
Theorem get_access_token_exchange w d r :
  file w = Document d ->
  well_formed d = true ->
  let t := default JNull (field d "access_token") in
  (truthy t = true -> remote (calls w) (GetMe t) = Resp r) ->
  let cached_ok := truthy t && (status_code r =? 200)%Z in
  let cs := if truthy t then GetMe t :: calls w else calls w in
  let x := PostToken (client_id self) (client_secret self) in
  exists res w',
    get_access_token remote self w = (res, w') /\
    stdout w' = stdout w /\
    exchanges (calls w') = exchanges (calls w) + (if cached_ok then 0 else 1) /\
    if cached_ok
    then res = Ok t /\ calls w' = cs /\ file w' = file w
    else calls w' = x :: cs /\
         forall r2, remote cs x = Resp r2 ->
           if (status_code r2 =? 200)%Z
           then forall m, body r2 = Some (JObj m) ->
                  let tok := default JNull (m !! "access_token") in
                  res = Ok tok /\
                  exists d', read_json w' = (Ok d', w') /\
                             field d' "access_token" = Some tok
           else (exists e, res = Raise e) /\ file w' = file w.
Proof.
  intros Hf Hwf t Hprobe cached_ok cs x.
  unfold get_access_token, bind.
  rewrite (cached_valid_token_document w d r Hf Hwf Hprobe). fold t.
  set (w0 := {| file := file w; calls := cs; stdout := stdout w |}).
  assert (Hnew :
    exists res w',
      request_new_token remote self w0 = (res, w') /\
      stdout w' = stdout w /\
      exchanges (calls w') = exchanges (calls w) + 1 /\
      calls w' = x :: cs /\
      forall r2, remote cs x = Resp r2 ->
        if (status_code r2 =? 200)%Z
        then forall m, body r2 = Some (JObj m) ->
               let tok := default JNull (m !! "access_token") in
               res = Ok tok /\
               exists d', read_json w' = (Ok d', w') /\
                          field d' "access_token" = Some tok
        else (exists e, res = Raise e) /\ file w' = file w).
  { destruct (request_new_token_calls w0) as (res & w' & Hrun & Hcalls & Hout).
    exists res, w'. split; [exact Hrun |]. split; [exact Hout |].
    split.
    { rewrite Hcalls. simpl calls. fold x. rewrite exchanges_cons. simpl.
      subst cs. destruct (truthy t); [rewrite exchanges_cons; simpl |]; lia. }
    split; [exact Hcalls |].
    intros r2 Hr2.
    assert (Hf0 : file w0 = Document d) by exact Hf.
    pose proof (request_new_token_outcome w0 d r2 Hf0 Hwf Hr2) as Hout2.
    destruct (status_code r2 =? 200)%Z.
    - intros m Hb tok. specialize (Hout2 m Hb). fold tok in Hout2.
      rewrite Hout2 in Hrun. injection Hrun as <- <-.
      split; [reflexivity |].
      exists (with_token d tok). split; [reflexivity |].
      rewrite with_token_field by assumption. now destruct (decide _).
    - destruct Hout2 as [e He]. rewrite He in Hrun. injection Hrun as <- <-.
      split; [now exists e | reflexivity]. }
  subst cached_ok. destruct (truthy t) eqn:Ht; simpl.
  - destruct (status_code r =? 200)%Z; simpl.
    + eexists _, _. split; [reflexivity |]. simpl.
      split; [reflexivity |]. split; [| repeat split].
      rewrite exchanges_cons. simpl. lia.
    + exact Hnew.
  - replace w with w0 at 1 by (subst w0 cs; now destruct w).
    exact Hnew.
Qed.

End Token.

(** * random.shuffle *)

Lemma swap_Permutation {A} (x : list A) i j : swap x i j ≡ₚ x.
Proof.
  unfold swap.
  destruct (x !! i) as [a|] eqn:Hi; [| reflexivity].
  destruct (x !! j) as [b|] eqn:Hj; [| reflexivity].
  now apply Permutation_insert_swap.
Qed.

Lemma shuffle_from_Permutation {A} rand i (x : list A) :
  shuffle_from rand i x ≡ₚ x.
Proof.
  revert x. induction i as [|i IH]; intros x; simpl.
  - reflexivity.
  - rewrite IH. apply swap_Permutation.
Qed.

Lemma shuffle_Permutation {A} rand (x : list A) : shuffle rand x ≡ₚ x.
Proof. apply shuffle_from_Permutation. Qed.

(** * The playback loop *)

Lemma holding_alter ts i t pc :
  ts !! i = Some t ->
  holding (alter (with_pc pc) i ts) = (holding ts - holds (t_pc t) + holds pc)%Z.
Proof.
  revert i. induction ts as [|u ts IH]; intros [|i] Hl; simplify_eq/=.
  - lia.
  - rewrite (IH i Hl). lia.
Qed.

Lemma remaining_alter ts i t pc :
  ts !! i = Some t ->
  remaining (alter (with_pc pc) i ts) + weight (t_pc t) = remaining ts + weight pc.
Proof.
  revert i. induction ts as [|u ts IH]; intros [|i] Hl; simplify_eq/=.
  - lia.
  - specialize (IH i Hl). lia.
Qed.

Lemma dispatched_alter_same ts i t pc :
  ts !! i = Some t ->
  has_put pc = has_put (t_pc t) ->
  dispatched (alter (with_pc pc) i ts) = dispatched ts.
Proof.
  revert i. induction ts as [|u ts IH]; intros [|i] Hl Hp; simplify_eq/=.
  - now rewrite Hp.
  - now rewrite (IH i Hl Hp).
Qed.

Lemma dispatched_alter_new ts i t pc :
  ts !! i = Some t ->
  has_put (t_pc t) = false ->
  has_put pc = true ->
  dispatched (alter (with_pc pc) i ts) ≡ₚ t_episode t :: dispatched ts.
Proof.
  revert i. induction ts as [|u ts IH]; intros [|i] Hl Hold Hnew; simplify_eq/=.
  - now rewrite Hold, Hnew.
  - destruct (has_put (t_pc u)); rewrite (IH i Hl Hold Hnew);
      [apply Permutation_swap | reflexivity].
Qed.

Lemma map_episode_alter ts i pc :
  map t_episode (alter (with_pc pc) i ts) = map t_episode ts.
Proof.
  revert i. induction ts as [|u ts IH]; intros [|i]; simpl; try reflexivity.
  f_equal. apply IH.
Qed.

Lemma holding_all_ended ts :
  forallb (fun t => ended (t_pc t)) ts = true -> holding ts = 0%Z.
Proof.
  induction ts as [|t ts IH]; simpl; [reflexivity |].
  intros [Ht Hts]%andb_true_iff. rewrite (IH Hts).
  now destruct (t_pc t).
Qed.

Lemma holding_created (eps : list json) :
  holding (map (fun ep => {| t_episode := ep; t_pc := Created |}) eps) = 0%Z.
Proof. induction eps as [|ep eps IH]; simpl; [reflexivity | now rewrite IH]. Qed.

Lemma holding_nonneg ts : (0 <= holding ts)%Z.
Proof.
  induction ts as [|t ts IH]; simpl; [lia |].
  destruct (t_pc t); simpl; lia.
Qed.

Lemma never_exceeds_nil cap : (0 <= cap)%Z -> never_exceeds cap [].
Proof.
  intros Hcap newer older Heq. symmetry in Heq.
  apply app_eq_nil in Heq as [_ ->]. exact Hcap.
Qed.

Lemma never_exceeds_cons cap ev tr :
  never_exceeds cap tr -> (held (ev :: tr) <= cap)%Z -> never_exceeds cap (ev :: tr).
Proof.
  intros Htr Hev newer older Heq.
  destruct newer as [|ev' newer]; simpl in Heq.
  - now subst older.
  - injection Heq as _ Heq. now apply (Htr newer).
Qed.

Lemma put_after_acquire_nil cap : put_after_acquire cap [].
Proof. intros [|? ?] ? ? ? ? Heq; discriminate. Qed.

Lemma put_after_acquire_cons cap ev tr :
  put_after_acquire cap tr ->
  (forall c i ep, ev = EvPut c i ep ->
     exists older', tr = EvAcquire c i :: older' /\ (held older' < cap)%Z) ->
  put_after_acquire cap (ev :: tr).
Proof.
  intros Htr Hev newer c i ep older Heq.
  destruct newer as [|ev' newer]; simpl in Heq.
  - injection Heq as -> ->. now apply (Hev c i ep).
  - injection Heq as _ Heq. now apply (Htr newer c i ep).
Qed.

Section Loop.

Variable remote : list request -> request -> http_outcome.
Variable self : fetcher.
Variable max_concurrent : Z.
Variable w0 : world.
Variable eps0 : list json.

#[local] Abbreviation R := (reachable remote self max_concurrent w0 eps0).

Lemma enter_cases i ep st :
  (exists w, enter remote self i ep st = set_pc i Sleeping (set_world w (entered i ep st))) \/
  (exists w, enter remote self i ep st =
             release_and_end i Finished (set_world w (entered i ep st))) \/
  (exists w e, enter remote self i ep st =
               set_failure e (release_and_end i (Failed e) (set_world w (entered i ep st)))).
Proof.
  unfold enter.
  destruct (play_episode_body remote self ep (st_world st)) as [[[]|e] w]; eauto.
Qed.

Lemma loop_head_cases rand st :
  (exists e w, loop_head rand st =
               set_main (Raised e) (set_world w (log (EvCheck (st_cycle st)) st))) \/
  (exists w, loop_head rand st =
             set_main Returned (set_world w (log (EvCheck (st_cycle st)) st))) \/
  (exists w, loop_head rand st = started rand w st).
Proof.
  unfold loop_head.
  destruct (is_enabled (st_world st)) as [[v|e] w]; [| eauto].
  destruct (truthy v); simpl; eauto.
Qed.

(** Induction over the reachable states, one case per transition. *)
Lemma reachable_cases (P : sched -> Prop) :
  P (play_randomly max_concurrent w0 eps0) ->
  (forall st f, R st -> P st -> P (set_world (set_file f (st_world st)) st)) ->
  (forall st rand, R st -> P st -> st_main st = AtLoop -> P (loop_head rand st)) ->
  (forall st e, R st -> P st -> st_main st = AtGather -> st_failure st = Some e ->
     P (set_main (Raised e) st)) ->
  (forall st, R st -> P st -> st_main st = AtGather -> st_failure st = None ->
     forallb (fun t => ended (t_pc t)) (st_tasks st) = true -> P (advanced st)) ->
  (forall st i t, R st -> P st -> st_main st = AtGather -> st_tasks st !! i = Some t ->
     t_pc t = Created -> (st_value st <= 0)%Z -> P (set_pc i Waiting st)) ->
  (forall st i t, R st -> P st -> st_main st = AtGather -> st_tasks st !! i = Some t ->
     has_put (t_pc t) = false -> (0 < st_value st)%Z ->
     P (enter remote self i (t_episode t) st)) ->
  (forall st i t, R st -> P st -> st_main st = AtGather -> st_tasks st !! i = Some t ->
     t_pc t = Sleeping -> P (wake i (t_episode t) st)) ->
  forall st, R st -> P st.
Proof.
  intros Hstart Hedit Hloop Hraise Hnext Hwait Henter Hwake st Hst.
  induction Hst as [|a st st' Hst IH Hstep]; [exact Hstart |].
  destruct a as [rand | i | f]; simpl in Hstep.
  - unfold main_step in Hstep.
    destruct (st_main st) eqn:Hmain; try discriminate.
    + injection Hstep as <-. now apply Hloop.
    + unfold gather_resume in Hstep.
      destruct (st_failure st) as [e|] eqn:Hfail.
      * injection Hstep as <-. now apply Hraise.
      * destruct (forallb _ _) eqn:Hall; [| discriminate].
        injection Hstep as <-. now apply Hnext.
  - unfold play_episode in Hstep.
    destruct (st_main st) eqn:Hmain; try discriminate.
    destruct (st_tasks st !! i) as [t|] eqn:Hlook; [| discriminate].
    destruct (t_pc t) eqn:Hpc; try discriminate.
    + destruct (0 <? st_value st)%Z eqn:Hval; injection Hstep as <-.
      * apply Henter; auto; [now rewrite Hpc | lia].
      * apply (Hwait st i t); auto; lia.
    + destruct (0 <? st_value st)%Z eqn:Hval; [| discriminate].
      injection Hstep as <-.
      apply Henter; auto; [now rewrite Hpc | lia].
    + injection Hstep as <-. now apply (Hwake st i t).
  - injection Hstep as <-. now apply Hedit.
Qed.

(** The semaphore's counter and the tasks inside [async with] add up to
    [max_concurrent]; so do the acquisitions and releases of the history. *)
Lemma semaphore_accounting st :
  R st ->
  (st_value st + holding (st_tasks st) = max_concurrent)%Z /\
  held (st_trace st) = holding (st_tasks st) /\
  (st_main st = AtLoop -> holding (st_tasks st) = 0%Z) /\
  ((max_concurrent < 0)%Z -> st_main st <> AtLoop /\ st_main st <> AtGather) /\
  ((0 <= max_concurrent)%Z -> (0 <= st_value st)%Z).
Proof.
  intros Hst. pattern st. revert st Hst.
  assert (Hge : forall st,
            ((max_concurrent < 0)%Z -> st_main st <> AtLoop /\ st_main st <> AtGather) ->
            st_main st = AtLoop \/ st_main st = AtGather ->
            (0 <= max_concurrent)%Z).
  { intros st Hneg Hmain.
    destruct (Z.lt_ge_cases max_concurrent 0) as [Hlt|]; [| lia].
    destruct (Hneg Hlt). destruct Hmain; congruence. }
  apply reachable_cases.
  - simpl. destruct (max_concurrent <? 0)%Z eqn:Hneg;
      repeat split; intros; try discriminate; lia.
  - intros st f _ IH. exact IH.
  - intros st rand _ (Hsum & Hheld & Hloop & Hneg & Hpos) Hmain.
    specialize (Hloop Hmain).
    pose proof (Hge st Hneg (or_introl Hmain)).
    destruct (loop_head_cases rand st) as [(e & w & ->) | [(w & ->) | (w & ->)]];
      simpl; rewrite ?holding_created;
      repeat split; intros; try discriminate; try lia; auto.
  - intros st e _ (Hsum & Hheld & Hloop & Hneg & Hpos) Hmain _. simpl.
    pose proof (Hge st Hneg (or_intror Hmain)).
    repeat split; intros; try discriminate; try lia; auto.
  - intros st _ (Hsum & Hheld & Hloop & Hneg & Hpos) Hmain _ Hall. simpl.
    pose proof (Hge st Hneg (or_intror Hmain)).
    pose proof (holding_all_ended _ Hall).
    repeat split; intros; try discriminate; try lia; auto.
  - intros st i t _ (Hsum & Hheld & Hloop & Hneg & Hpos) Hmain Hlook Hpc Hval. simpl.
    pose proof (Hge st Hneg (or_intror Hmain)).
    rewrite (holding_alter _ _ _ _ Hlook), Hpc. simpl.
    repeat split; intros; try congruence; try lia; auto.
  - intros st i t _ (Hsum & Hheld & Hloop & Hneg & Hpos) Hmain Hlook Hpc Hval.
    pose proof (Hge st Hneg (or_intror Hmain)).
    assert (Hh : holds (t_pc t) = 0%Z) by (destruct (t_pc t); simpl in *; congruence).
    destruct (enter_cases i (t_episode t) st) as [[w ->] | [[w ->] | (w & e & ->)]];
      simpl; rewrite (holding_alter _ _ _ _ Hlook), Hh; simpl;
      repeat split; intros; try congruence; try lia; auto.
  - intros st i t _ (Hsum & Hheld & Hloop & Hneg & Hpos) Hmain Hlook Hpc.
    unfold wake, print. simpl.
    pose proof (Hge st Hneg (or_intror Hmain)).
    rewrite (holding_alter _ _ _ _ Hlook), Hpc. simpl.
    repeat split; intros; try congruence; try lia; auto.
Qed.

Lemma trace_bounded st :
  R st ->
  never_exceeds (Z.max 0 max_concurrent) (st_trace st) /\
  put_after_acquire (Z.max 0 max_concurrent) (st_trace st).
Proof.
  intros Hst. pattern st. revert st Hst. apply reachable_cases.
  - split; [apply never_exceeds_nil; lia | apply put_after_acquire_nil].
  - intros st f _ IH. exact IH.
  - intros st rand Hst [Hb Hp] Hmain.
    destruct (semaphore_accounting st Hst) as (Hsum & Hheld & Hloop & _ & Hpos).
    pose proof (holding_nonneg (st_tasks st)) as Hnn.
    assert (Hle : (held (st_trace st) <= Z.max 0 max_concurrent)%Z)
      by (apply (Hb []); reflexivity).
    destruct (loop_head_cases rand st) as [(e & w & ->) | [(w & ->) | (w & ->)]]; simpl;
      split;
      repeat (first [ apply never_exceeds_cons | apply put_after_acquire_cons ];
              [| simpl; try discriminate; try lia ]);
      assumption.
  - intros st e _ IH _ _. exact IH.
  - intros st _ IH _ _ _. exact IH.
  - intros st i t _ IH _ _ _ _. exact IH.
  - intros st i t Hst [Hb Hp] Hmain Hlook Hpc Hval.
    destruct (semaphore_accounting st Hst) as (Hsum & Hheld & Hloop & _ & Hpos).
    pose proof (holding_nonneg (st_tasks st)) as Hnn.
    assert (Hacq : forall c j ep, EvPut (st_cycle st) i (t_episode t) = EvPut c j ep ->
              exists older', EvAcquire (st_cycle st) i :: st_trace st = EvAcquire c j :: older' /\
                             (held older' < Z.max 0 max_concurrent)%Z).
    { intros c j ep [= <- <- _]. eexists. split; [reflexivity | lia]. }
    destruct (enter_cases i (t_episode t) st) as [[w ->] | [[w ->] | (w & e & ->)]]; simpl;
      split;
      repeat (first [ apply never_exceeds_cons | apply put_after_acquire_cons ];
              [| simpl; try discriminate; try exact Hacq; try lia ]);
      assumption.
  - intros st i t Hst [Hb Hp] Hmain Hlook Hpc.
    destruct (semaphore_accounting st Hst) as (Hsum & Hheld & Hloop & _ & Hpos).
    pose proof (holding_nonneg (st_tasks st)) as Hnn.
    assert (Hle : (held (st_trace st) <= Z.max 0 max_concurrent)%Z)
      by (apply (Hb []); reflexivity).
    unfold wake, print; simpl; split;
      repeat (first [ apply never_exceeds_cons | apply put_after_acquire_cons ];
              [| simpl; try discriminate; try lia ]);
      assumption.
Qed.

(** C1: under every schedule, every source of randomness and every editing
    of the file, for every episode list and every [max_concurrent]: after no
    prefix of the history do the acquisitions of the semaphore exceed its
    releases by more than [max_concurrent] (by more than 0 when it is
    negative); every play command is sent right after its task got through
    the semaphore, at a moment when fewer than that many commands were in
    flight; and the tasks suspended inside [async with semaphore] are never
    more than that. *)
Theorem in_flight_bounded st :
  reachable remote self max_concurrent w0 eps0 st ->
  never_exceeds (Z.max 0 max_concurrent) (st_trace st) /\
  put_after_acquire (Z.max 0 max_concurrent) (st_trace st) /\
  (holding (st_tasks st) <= Z.max 0 max_concurrent)%Z.
Proof.
  intros Hst.
  destruct (trace_bounded st Hst) as [Hb Hp].
  destruct (semaphore_accounting st Hst) as (_ & Hheld & _).
  repeat split; try assumption.
  rewrite <- Hheld. apply (Hb []). reflexivity.
Qed.

Lemma map_episode_created (eps : list json) :
  map t_episode (map (fun ep => {| t_episode := ep; t_pc := Created |}) eps) = eps.
Proof. induction eps as [|ep eps IH]; simpl; [reflexivity | now rewrite IH]. Qed.

Lemma dispatched_created (eps : list json) :
  dispatched (map (fun ep => {| t_episode := ep; t_pc := Created |}) eps) = [].
Proof. induction eps as [|ep eps IH]; simpl; [reflexivity | exact IH]. Qed.

Lemma dispatched_all_ended ts :
  forallb (fun t => ended (t_pc t)) ts = true -> dispatched ts = map t_episode ts.
Proof.
  induction ts as [|t ts IH]; simpl; [reflexivity |].
  intros [Ht Hts]%andb_true_iff. rewrite (IH Hts).
  now destruct (t_pc t).
Qed.

Lemma Forall_cycle_weaken (P Q : nat -> Prop) (tr : list event) :
  (forall c, P c -> Q c) ->
  Forall (fun ev => P (cycle_of ev)) tr -> Forall (fun ev => Q (cycle_of ev)) tr.
Proof.
  intros HPQ Htr. eapply Forall_impl; [exact Htr |].
  intros ev. apply HPQ.
Qed.

(** The episode list stays a permutation of the configured one, the tasks of
    an iteration are its episodes in order, and no event is tagged with an
    iteration that has not begun. *)
Lemma loop_shape st :
  R st ->
  st_episodes st ≡ₚ eps0 /\
  (st_main st = AtGather -> map t_episode (st_tasks st) = st_episodes st) /\
  Forall (fun ev => cycle_of ev <= st_cycle st) (st_trace st) /\
  (st_main st = AtLoop -> Forall (fun ev => cycle_of ev < st_cycle st) (st_trace st)).
Proof.
  intros Hst. pattern st. revert st Hst.
  assert (Hgrow : forall c (tr : list event) ev,
            Forall (fun ev => cycle_of ev <= c) tr -> cycle_of ev <= c ->
            Forall (fun ev => cycle_of ev <= c) (ev :: tr))
    by (intros; now apply Forall_cons).
  apply reachable_cases.
  - simpl. destruct (max_concurrent <? 0)%Z;
      repeat split; intros; try discriminate; try reflexivity; apply Forall_nil_2.
  - intros st f _ IH. exact IH.
  - intros st rand _ (He & Ht & Hle & Hlt) Hmain.
    destruct (loop_head_cases rand st) as [(e & w & ->) | [(w & ->) | (w & ->)]]; simpl;
      repeat split; intros; try discriminate;
      repeat (apply Hgrow; [| simpl; lia]); auto.
    + rewrite shuffle_Permutation. exact He.
    + apply map_episode_created.
  - intros st e _ (He & Ht & Hle & Hlt) Hmain _. simpl.
    repeat split; intros; try discriminate; auto.
  - intros st _ (He & Ht & Hle & Hlt) Hmain _ _. simpl.
    repeat split; intros; try discriminate; auto;
      (eapply Forall_impl; [exact Hle | simpl; intros; lia]).
  - intros st i t _ (He & Ht & Hle & Hlt) Hmain _ _ _. simpl.
    rewrite map_episode_alter. repeat split; intros; try congruence; auto.
  - intros st i t _ (He & Ht & Hle & Hlt) Hmain _ _ _.
    destruct (enter_cases i (t_episode t) st) as [[w ->] | [[w ->] | (w & e & ->)]]; simpl;
      rewrite map_episode_alter; repeat split; intros; try congruence;
      repeat (apply Hgrow; [| simpl; lia]); auto.
  - intros st i t _ (He & Ht & Hle & Hlt) Hmain _ _. unfold wake, print. simpl.
    rewrite map_episode_alter. repeat split; intros; try congruence;
      repeat (apply Hgrow; [| simpl; lia]); auto.
Qed.

Lemma play_episode_body_calls ep w :
  calls (snd (play_episode_body remote self ep w)) = play_request self ep :: calls w.
Proof.
  unfold play_episode_body, http, bind, lift, print, ret.
  destruct (remote (calls w) _) as [r|]; [| reflexivity].
  destruct (status_code r =? 204)%Z; [reflexivity |].
  destruct (response_json r); reflexivity.
Qed.

Lemma is_enabled_calls w : calls (snd (is_enabled w)) = calls w.
Proof.
  unfold_m. destruct (file w) as [| |text|d]; simpl; try reflexivity.
  destruct (spotify_get d "enabled" (JBool false)) as [v|e]; simpl;
    [| destruct (is_read_failure e); simpl ]; reflexivity.
Qed.

(** The requests sent since the loop started are the play commands of the
    history, in the same order. *)
Lemma puts_are_requests st :
  R st ->
  calls (st_world st) = map (play_request self) (all_puts (st_trace st)) ++ calls w0.
Proof.
  intros Hst. pattern st. revert st Hst. apply reachable_cases.
  - reflexivity.
  - intros st f _ IH. exact IH.
  - intros st rand _ IH _. unfold loop_head.
    pose proof (is_enabled_calls (st_world st)) as Hc.
    destruct (is_enabled (st_world st)) as [[v|e] w]; simpl in *; [| congruence].
    destruct (truthy v); simpl; congruence.
  - intros st e _ IH _ _. exact IH.
  - intros st _ IH _ _ _. exact IH.
  - intros st i t _ IH _ _ _ _. exact IH.
  - intros st i t _ IH _ _ _ _. unfold enter.
    pose proof (play_episode_body_calls (t_episode t) (st_world st)) as Hc.
    destruct (play_episode_body remote self (t_episode t) (st_world st)) as [[[]|e] w];
      simpl in *; rewrite Hc, IH; reflexivity.
  - intros st i t _ IH _ _ _. exact IH.
Qed.

Lemma puts_of_future c (tr : list event) :
  Forall (fun ev => cycle_of ev < c) tr -> puts_of c tr = [].
Proof.
  induction 1 as [|ev tr Hev _ IH]; simpl; [reflexivity |].
  destruct ev; simpl in *; try exact IH.
  rewrite decide_False by lia. exact IH.
Qed.

Lemma puts_of_cons_later c ev (tr : list event) :
  c < cycle_of ev -> puts_of c (ev :: tr) = puts_of c tr.
Proof.
  intros Hlt. destruct ev; simpl in *; try reflexivity.
  now rewrite decide_False by lia.
Qed.

(** The play commands of the running iteration are those of the tasks past
    the semaphore; each finished iteration sent one per configured episode. *)
Lemma dispatch_accounting st :
  R st ->
  (st_main st = AtGather ->
   puts_of (st_cycle st) (st_trace st) ≡ₚ dispatched (st_tasks st)) /\
  (forall c, c < st_cycle st -> puts_of c (st_trace st) ≡ₚ eps0).
Proof.
  intros Hst. pattern st. revert st Hst. apply reachable_cases.
  - simpl. split; intros; [reflexivity | lia].
  - intros st f _ IH. exact IH.
  - intros st rand Hst (Hd & Hk) Hmain.
    destruct (loop_shape st Hst) as (_ & _ & _ & Hlt). specialize (Hlt Hmain).
    destruct (loop_head_cases rand st) as [(e & w & ->) | [(w & ->) | (w & ->)]]; simpl;
      (split; [intros; try discriminate | intros c Hc; auto]).
    rewrite dispatched_created. now rewrite puts_of_future.
  - intros st e _ (Hd & Hk) Hmain _. simpl. split; [discriminate | exact Hk].
  - intros st Hst (Hd & Hk) Hmain _ Hall. simpl. split; [discriminate |].
    destruct (loop_shape st Hst) as (He & Ht & _).
    intros c Hc. destruct (decide (c = st_cycle st)) as [-> | Hne].
    + rewrite (Hd Hmain), (dispatched_all_ended _ Hall), (Ht Hmain). exact He.
    + apply Hk. lia.
  - intros st i t _ (Hd & Hk) Hmain Hlook Hpc _. simpl. split; [| exact Hk].
    intros _. rewrite (dispatched_alter_same _ _ t) by (rewrite ?Hpc; auto).
    exact (Hd Hmain).
  - intros st i t _ (Hd & Hk) Hmain Hlook Hpc _.
    destruct (enter_cases i (t_episode t) st) as [[w ->] | [[w ->] | (w & e & ->)]]; simpl;
      (split;
       [ intros _; rewrite decide_True by reflexivity;
         rewrite (dispatched_alter_new _ _ t) by auto;
         now rewrite (Hd Hmain)
       | intros c Hc; rewrite decide_False by lia; now apply Hk ]).
  - intros st i t _ (Hd & Hk) Hmain Hlook Hpc. unfold wake, print. simpl.
    split; [| exact Hk].
    intros _. rewrite (dispatched_alter_same _ _ t) by (rewrite ?Hpc; auto).
    exact (Hd Hmain).
Qed.

Lemma ended_cycle_dispatched st :
  R st ->
  st_main st = AtGather ->
  forallb (fun t => ended (t_pc t)) (st_tasks st) = true ->
  puts_of (st_cycle st) (st_trace st) ≡ₚ eps0.
Proof.
  intros Hst Hmain Hall.
  destruct (dispatch_accounting st Hst) as (Hd & _).
  destruct (loop_shape st Hst) as (He & Ht & _).
  rewrite (Hd Hmain), (dispatched_all_ended _ Hall), (Ht Hmain). exact He.
Qed.

(** C3: for every episode list (empty or not), under every schedule and
    whatever the shuffles produce: the play commands sent in an iteration
    that the loop has left behind are, as a multiset, the configured episode
    ids, one command per entry of the list; the same holds for the running
    iteration once all its tasks have ended.  The play commands of the
    history are the requests the service received, in the same order. *)
Theorem cycle_dispatches_each_once st :
  reachable remote self max_concurrent w0 eps0 st ->
  (forall c, c < st_cycle st -> puts_of c (st_trace st) ≡ₚ eps0) /\
  (st_main st = AtGather ->
   forallb (fun t => ended (t_pc t)) (st_tasks st) = true ->
   puts_of (st_cycle st) (st_trace st) ≡ₚ eps0) /\
  calls (st_world st) = map (play_request self) (all_puts (st_trace st)) ++ calls w0.
Proof.
  intros Hst. split; [| split].
  - now apply dispatch_accounting.
  - now apply ended_cycle_dispatched.
  - now apply puts_are_requests.
Qed.

Lemma barrier_respected_nil n : barrier_respected n [].
Proof. intros [|? ?] ? ? ? ? Heq; discriminate. Qed.

Lemma barrier_respected_cons n ev (tr : list event) :
  barrier_respected n tr ->
  (forall m i, cycle_of ev = S m -> i < n -> EvEnd m i ∈ tr) ->
  barrier_respected n (ev :: tr).
Proof.
  intros Htr Hev newer ev' older m i Heq Hc Hi.
  destruct newer as [|ev'' newer]; simpl in Heq.
  - injection Heq as -> ->. now apply Hev.
  - injection Heq as _ Heq. now apply (Htr newer ev' older m i).
Qed.

Lemma all_ended_lookup ts i (t : task) :
  forallb (fun t => ended (t_pc t)) ts = true ->
  ts !! i = Some t -> ended (t_pc t) = true.
Proof.
  intros Hall Hl. rewrite forallb_forall in Hall.
  apply Hall. apply list_elem_of_In. now apply list_elem_of_lookup_2 with i.
Qed.

Lemma created_lookup (eps : list json) i (t : task) :
  map (fun ep => {| t_episode := ep; t_pc := Created |}) eps !! i = Some t ->
  t_pc t = Created.
Proof.
  revert i. induction eps as [|ep eps IH]; intros [|i] Hl; simplify_eq/=.
  - reflexivity.
  - now apply (IH i).
Qed.

(** The ends of the tasks recorded in the history: all those of the
    iterations left behind, and those of the tasks of the running iteration
    that have ended. *)
Lemma ends_recorded st :
  R st ->
  (forall n i, n < st_cycle st -> i < length eps0 -> EvEnd n i ∈ st_trace st) /\
  (st_main st = AtGather ->
   forall i t, st_tasks st !! i = Some t -> ended (t_pc t) = true ->
               EvEnd (st_cycle st) i ∈ st_trace st) /\
  barrier_respected (length eps0) (st_trace st).
Proof.
  intros Hst. pattern st. revert st Hst.
  apply reachable_cases.
  - simpl. repeat split; intros; try lia; try discriminate.
    apply barrier_respected_nil.
  - intros st f _ IH. exact IH.
  - intros st rand _ (Hf & Hg & Hb) Hmain.
    assert (Hnew : forall c m i, c = st_cycle st -> c = S m -> i < length eps0 ->
                     EvEnd m i ∈ st_trace st)
      by (intros c m i -> Hc Hi; apply Hf; [lia | exact Hi]).
    destruct (loop_head_cases rand st) as [(e & w & ->) | [(w & ->) | (w & ->)]]; simpl;
      (split; [intros n i Hn Hi; repeat apply list_elem_of_further; now apply Hf |]);
      (split; [intros; try discriminate |]).
    + apply barrier_respected_cons; [exact Hb |]. simpl. intros m i. now apply Hnew.
    + apply barrier_respected_cons; [exact Hb |]. simpl. intros m i. now apply Hnew.
    + exfalso.
      match goal with
      | H : map _ _ !! _ = Some ?t, H' : ended (t_pc ?t) = true |- _ =>
          rewrite (created_lookup _ _ _ H) in H'; discriminate H'
      end.
    + apply barrier_respected_cons; [apply barrier_respected_cons; [exact Hb |] |];
        simpl; intros m i Hc Hi; repeat apply list_elem_of_further; now apply (Hnew _ m i eq_refl).
  - intros st e _ (Hf & Hg & Hb) Hmain _. simpl.
    repeat split; auto. discriminate.
  - intros st Hst (Hf & Hg & Hb) Hmain _ Hall. simpl.
    destruct (loop_shape st Hst) as (He & Ht & _).
    split; [| split; [discriminate | exact Hb]].
    intros n i Hn Hi. destruct (decide (n = st_cycle st)) as [-> | Hne].
    + assert (Hlen : length (st_tasks st) = length eps0).
      { rewrite <- (length_map t_episode), (Ht Hmain). now rewrite He. }
      destruct (lookup_lt_is_Some_2 (st_tasks st) i) as [t Hl]; [lia |].
      apply (Hg Hmain i t Hl). exact (all_ended_lookup _ i t Hall Hl).
    + apply Hf; [lia | exact Hi].
  - intros st i t _ (Hf & Hg & Hb) Hmain Hlook Hpc _. simpl.
    split; [exact Hf |]. split; [| exact Hb].
    intros _ j u Hj Hu.
    destruct (decide (i = j)) as [<- | Hne].
    + rewrite list_lookup_alter_eq, Hlook in Hj. simpl in Hj.
      injection Hj as <-. discriminate Hu.
    + rewrite list_lookup_alter_ne in Hj by exact Hne.
      exact (Hg Hmain j u Hj Hu).
  - intros st i t _ (Hf & Hg & Hb) Hmain Hlook Hpc _.
    assert (Hnew : forall m k, st_cycle st = S m -> k < length eps0 ->
                     EvEnd m k ∈ st_trace st)
      by (intros m k Hc Hk; apply Hf; [lia | exact Hk]).
    assert (Hold : forall j u pc,
              alter (with_pc pc) i (st_tasks st) !! j = Some u ->
              ended (t_pc u) = true -> i <> j -> EvEnd (st_cycle st) j ∈ st_trace st).
    { intros j u pc Hj Hu Hne. rewrite list_lookup_alter_ne in Hj by exact Hne.
      now apply (Hg Hmain j u). }
    destruct (enter_cases i (t_episode t) st) as [[w ->] | [[w ->] | (w & e & ->)]]; simpl;
      (split; [intros n k Hn Hk; repeat apply list_elem_of_further; now apply Hf |]);
      (split;
       [ intros _ j u Hj Hu; destruct (decide (i = j)) as [<- | Hne];
         [ try apply list_elem_of_here;
           try (rewrite list_lookup_alter_eq, Hlook in Hj; simpl in Hj;
                injection Hj as <-; discriminate Hu)
         | repeat apply list_elem_of_further; now apply (Hold j u _ Hj Hu) ]
       | repeat (apply barrier_respected_cons;
                 [| simpl; intros m k Hc Hk; repeat apply list_elem_of_further;
                    now apply Hnew ]);
         exact Hb ]).
  - intros st i t _ (Hf & Hg & Hb) Hmain Hlook Hpc.
    assert (Hnew : forall m k, st_cycle st = S m -> k < length eps0 ->
                     EvEnd m k ∈ st_trace st)
      by (intros m k Hc Hk; apply Hf; [lia | exact Hk]).
    unfold wake, print. simpl.
    split; [intros n k Hn Hk; repeat apply list_elem_of_further; now apply Hf |].
    split.
    + intros _ j u Hj Hu. destruct (decide (i = j)) as [<- | Hne].
      * apply list_elem_of_here.
      * repeat apply list_elem_of_further. rewrite list_lookup_alter_ne in Hj by exact Hne.
        now apply (Hg Hmain j u).
    + repeat (apply barrier_respected_cons;
              [| simpl; intros m k Hc Hk; repeat apply list_elem_of_further;
                 now apply Hnew ]);
        exact Hb.
Qed.

(** C2: in every history, whatever is tagged with iteration [n + 1] (the
    check of the enabled flag, the shuffle, the acquisitions, play commands,
    releases and ends of its tasks) comes after the end of each task of
    iteration [n], an end being recorded for a task that returned and for a
    task that raised alike. *)
Theorem cycles_do_not_overlap st :
  reachable remote self max_concurrent w0 eps0 st ->
  barrier_respected (length eps0) (st_trace st).
Proof. intros Hst. now apply ends_recorded. Qed.

(** ** Progress of an iteration *)

Lemma play_episode_measure i st st' :
  play_episode remote self i st = Some st' ->
  remaining (st_tasks st') < remaining (st_tasks st) /\
  st_main st = AtGather /\ st_main st' = AtGather /\
  st_cycle st' = st_cycle st /\ st_episodes st' = st_episodes st.
Proof.
  unfold play_episode.
  destruct (st_main st) eqn:Hmain; try discriminate.
  destruct (st_tasks st !! i) as [t|] eqn:Hlook; [| discriminate].
  assert (Henter : forall st1, has_put (t_pc t) = false ->
            enter remote self i (t_episode t) st = st1 ->
            remaining (st_tasks st1) < remaining (st_tasks st) /\
            AtGather = AtGather /\ st_main st1 = AtGather /\
            st_cycle st1 = st_cycle st /\ st_episodes st1 = st_episodes st).
  { intros st1 Hpc <-.
    destruct (enter_cases i (t_episode t) st) as [[w ->] | [[w ->] | (w & e & ->)]]; simpl;
      match goal with
      | |- context [alter (with_pc ?pc) i _] =>
          pose proof (remaining_alter _ _ _ pc Hlook) as Hrem
      end;
      destruct (t_pc t); try discriminate; simpl in Hrem; repeat split; auto; lia. }
  destruct (t_pc t) eqn:Hpc; try discriminate.
  - destruct (0 <? st_value st)%Z; intros [= <-].
    + apply Henter; reflexivity.
    + simpl. pose proof (remaining_alter _ _ _ Waiting Hlook) as Hrem.
      rewrite Hpc in Hrem. simpl in Hrem. repeat split; auto; lia.
  - destruct (0 <? st_value st)%Z; intros [= <-].
    apply Henter; reflexivity.
  - intros [= <-]. unfold wake, print. simpl.
    pose proof (remaining_alter _ _ _ Finished Hlook) as Hrem.
    rewrite Hpc in Hrem. simpl in Hrem. repeat split; auto; lia.
Qed.

(** However the tasks of an iteration are scheduled, they are resumed at
    most [remaining] times. *)
Lemma task_moves_bounded acts st st' :
  Forall (fun a => is_main a = false) acts ->
  run remote self acts st = Some st' ->
  task_moves acts + remaining (st_tasks st') <= remaining (st_tasks st) /\
  st_main st' = st_main st /\ st_cycle st' = st_cycle st /\
  st_episodes st' = st_episodes st.
Proof.
  intros Hacts. revert st. induction Hacts as [|a acts Ha _ IH]; intros st; simpl.
  - intros [= <-]. repeat split; auto.
  - destruct a as [rand | i | f]; simpl in *; try discriminate.
    + destruct (play_episode remote self i st) as [st1|] eqn:Hstep; [| discriminate].
      intros Hrun. destruct (IH _ Hrun) as (Hle & Hm & Hc & He).
      destruct (play_episode_measure _ _ _ Hstep) as (Hlt & Hm0 & Hm1 & Hc1 & He1).
      repeat split; try congruence; lia.
    + intros Hrun. destruct (IH _ Hrun) as (Hle & Hm & Hc & He).
      repeat split; auto.
Qed.

Lemma reachable_run acts st st' :
  R st -> run remote self acts st = Some st' -> R st'.
Proof.
  revert st. induction acts as [|a acts IH]; intros st Hst; simpl.
  - now intros [= <-].
  - destruct (step remote self a st) as [st1|] eqn:Hstep; [| discriminate].
    apply IH. now apply (reach_step _ _ _ _ _ a st).
Qed.

Lemma holding_positive ts :
  (0 < holding ts)%Z -> exists j u, ts !! j = Some u /\ t_pc u = Sleeping.
Proof.
  induction ts as [|t ts IH]; simpl; [lia |].
  destruct (t_pc t) eqn:Hpc; simpl;
    try (intros Hpos; destruct (IH ltac:(lia)) as (j & u & Hj & Hu);
         exists (S j), u; now split).
  intros _. exists 0, t. now split.
Qed.

Lemma not_all_ended ts :
  forallb (fun t => ended (t_pc t)) ts = false ->
  exists i t, ts !! i = Some t /\ ended (t_pc t) = false.
Proof.
  induction ts as [|t ts IH]; simpl; [discriminate |].
  destruct (ended (t_pc t)) eqn:Ht; simpl.
  - intros Hts. destruct (IH Hts) as (i & u & Hi & Hu). now exists (S i), u.
  - intros _. now exists 0, t.
Qed.

(** With a semaphore of at least one unit, an iteration whose tasks have not
    all ended has a task that can be resumed. *)
Lemma no_deadlock st :
  R st ->
  (1 <= max_concurrent)%Z ->
  st_main st = AtGather ->
  forallb (fun t => ended (t_pc t)) (st_tasks st) = false ->
  exists i st', play_episode remote self i st = Some st'.
Proof.
  intros Hst Hmax Hmain Hall.
  destruct (semaphore_accounting st Hst) as (Hsum & _).
  assert (Hsleep : forall j u, st_tasks st !! j = Some u -> t_pc u = Sleeping ->
                     exists i st', play_episode remote self i st = Some st').
  { intros j u Hj Hu. exists j. unfold play_episode. rewrite Hmain, Hj, Hu. eauto. }
  destruct (not_all_ended _ Hall) as (i & t & Hi & Ht).
  destruct (t_pc t) eqn:Hpc; try discriminate.
  - exists i. unfold play_episode. rewrite Hmain, Hi, Hpc.
    destruct (0 <? st_value st)%Z; eauto.
  - destruct (0 <? st_value st)%Z eqn:Hval.
    + exists i. unfold play_episode. rewrite Hmain, Hi, Hpc, Hval. eauto.
    + destruct (holding_positive (st_tasks st)) as (j & u & Hj & Hu); [lia |].
      now apply (Hsleep j u).
  - now apply (Hsleep i t).
Qed.


(** ** A play command that is refused *)

Lemma play_episode_body_refused ep w r j :
  remote (calls w) (play_request self ep) = Resp r ->
  status_code r <> 204%Z ->
  body r = Some j ->
  play_episode_body remote self ep w =
    (Ok Completed,
     {| file := file w; calls := play_request self ep :: calls w;
        stdout := OutFailed ep j :: stdout w |}).
Proof.
  intros Hr Hs Hb. unfold play_episode_body, http, bind, lift, print, ret.
  unfold play_request in *. rewrite Hr.
  destruct (status_code r =? 204)%Z eqn:Hst; [lia |].
  unfold response_json. now rewrite Hb.
Qed.

Lemma play_episode_body_decodable ep w :
  decodable remote self ->
  exists o w', play_episode_body remote self ep w = (Ok o, w').
Proof.
  intros Hdec. specialize (Hdec (calls w) ep).
  unfold play_episode_body, http, bind, lift, print, ret.
  destruct (remote (calls w) _) as [r|]; [| contradiction].
  destruct (status_code r =? 204)%Z eqn:Hst; [eauto |].
  destruct Hdec as [Hs | [j Hb]]; [lia |].
  unfold response_json. rewrite Hb. eauto.
Qed.

(** When every play command gets a decodable answer, no task raises. *)
Lemma no_failure st :
  decodable remote self -> R st -> st_failure st = None.
Proof.
  intros Hdec Hst. pattern st. revert st Hst. apply reachable_cases.
  - reflexivity.
  - intros st f _ IH. exact IH.
  - intros st rand _ IH _.
    destruct (loop_head_cases rand st) as [(e & w & ->) | [(w & ->) | (w & ->)]];
      simpl; auto.
  - intros st e _ IH _ Hfail. congruence.
  - reflexivity.
  - intros st i t _ IH _ _ _ _. exact IH.
  - intros st i t _ IH _ _ _ _. unfold enter.
    destruct (play_episode_body_decodable (t_episode t) (st_world st) Hdec)
      as (o & w & ->).
    destruct o; simpl; exact IH.
  - intros st i t _ IH _ _ _. exact IH.
Qed.

(** Once every task has ended without raising, the loop moves on. *)
Lemma barrier_opens st rand :
  st_main st = AtGather ->
  st_failure st = None ->
  forallb (fun t => ended (t_pc t)) (st_tasks st) = true ->
  step remote self (Main rand) st = Some (advanced st).
Proof.
  intros Hmain Hfail Hall. simpl. unfold main_step, gather_resume.
  now rewrite Hmain, Hfail, Hall.
Qed.

Lemma play_episode_body_answered ep w :
  match remote (calls w) (play_request self ep) with
  | Resp r => status_code r = 204%Z \/ is_Some (body r)
  | NetErr => False
  end ->
  exists o w', play_episode_body remote self ep w = (Ok o, w').
Proof.
  unfold play_episode_body, http, bind, lift, print, ret.
  destruct (remote (calls w) _) as [r|]; [| contradiction].
  destruct (status_code r =? 204)%Z eqn:Hst; [eauto |].
  intros [Hs | [j Hb]]; [lia |].
  unfold response_json. rewrite Hb. eauto.
Qed.

(** A task whose play command is well answered does not raise. *)
Lemma well_answered_step i st st' :
  well_answered_now remote self (Task i) st ->
  play_episode remote self i st = Some st' ->
  st_failure st' = st_failure st.
Proof.
  unfold well_answered_now, about_to_put, play_episode.
  destruct (st_main st); try discriminate.
  destruct (st_tasks st !! i) as [t|]; [| discriminate].
  assert (Henter : has_put (t_pc t) = false -> (0 <? st_value st)%Z = true ->
            (if negb (has_put (t_pc t)) && (0 <? st_value st)%Z
             then Some (t_episode t) else None) = Some (t_episode t))
    by (intros -> ->; reflexivity).
  assert (Hgo : match remote (calls (st_world st)) (play_request self (t_episode t)) with
                | Resp r => status_code r = 204%Z \/ is_Some (body r)
                | NetErr => False
                end ->
                st_failure (enter remote self i (t_episode t) st) = st_failure st).
  { intros Hans. unfold enter.
    destruct (play_episode_body_answered (t_episode t) (st_world st) Hans)
      as (o & w & ->).
    destruct o; reflexivity. }
  destruct (t_pc t) eqn:Hpc; try discriminate; simpl.
  - destruct (0 <? st_value st)%Z; simpl; intros Hans [= <-];
      [now apply Hgo | reflexivity].
  - destruct (0 <? st_value st)%Z; simpl; intros Hans [= <-]. now apply Hgo.
  - intros _ [= <-]. reflexivity.
Qed.

(** Along a schedule all of whose play commands are well answered, no task
    raises. *)
Lemma well_answered_run acts st st' :
  Forall (fun a => is_main a = false) acts ->
  run remote self acts st = Some st' ->
  well_answered remote self acts st ->
  st_failure st' = st_failure st.
Proof.
  intros Hacts. revert st. induction Hacts as [|a acts Ha _ IH]; intros st; simpl.
  - now intros [= <-].
  - destruct (step remote self a st) as [st1|] eqn:Hstep; [| discriminate].
    intros Hrun [Hnow Hrest]. rewrite (IH st1 Hrun Hrest).
    destruct a as [rand | i | f]; simpl in *; try discriminate.
    + now apply (well_answered_step i).
    + injection Hstep as <-. reflexivity.
Qed.

(** A service all of whose answers to play commands can be decoded answers
    well along every schedule. *)
Lemma decodable_well_answered acts st :
  decodable remote self -> well_answered remote self acts st.
Proof.
  intros Hdec. revert st. induction acts as [|a acts IH]; intros st; simpl; [exact I |].
  split.
  - destruct a as [rand | i | f]; simpl; try exact I.
    destruct (about_to_put i st) as [ep|]; [apply Hdec | exact I].
  - destruct (step remote self a st); [apply IH | exact I].
Qed.

(** C7, as amended: a play command answered with a status other than 204 and
    a body that decodes as JSON makes its task print the failure with that
    body, give its unit of the semaphore back and end without raising.  If
    no task of the iteration has raised before, then along every schedule
    of the tasks in which every later play command of the iteration is
    answered with 204 or with such a body, the tasks are resumed a bounded
    number of times, none raises, and whenever no task can be resumed the
    loop moves on to its next iteration, the iteration left behind having
    sent one play command per configured episode. *)
Theorem refused_play_is_not_fatal st i t r j :
  st_main st = AtGather ->
  st_tasks st !! i = Some t ->
  has_put (t_pc t) = false ->
  (0 < st_value st)%Z ->
  remote (calls (st_world st)) (play_request self (t_episode t)) = Resp r ->
  status_code r <> 204%Z ->
  body r = Some j ->
  exists st1,
    step remote self (Task i) st = Some st1 /\
    st_tasks st1 !! i = Some (with_pc Finished t) /\
    st_failure st1 = st_failure st /\
    st_main st1 = AtGather /\
    st_value st1 = st_value st /\
    stdout (st_world st1) = OutFailed (t_episode t) j :: stdout (st_world st) /\
    (reachable remote self max_concurrent w0 eps0 st ->
     st_failure st = None ->
     forall acts st2,
       Forall (fun a => is_main a = false) acts ->
       run remote self acts st1 = Some st2 ->
       well_answered remote self acts st1 ->
       task_moves acts <= remaining (st_tasks st1) /\
       st_failure st2 = None /\
       ((exists k st3, step remote self (Task k) st2 = Some st3) \/
        (forall rand, exists st3,
           step remote self (Main rand) st2 = Some st3 /\
           st_main st3 = AtLoop /\
           st_cycle st3 = S (st_cycle st) /\
           puts_of (st_cycle st) (st_trace st3) ≡ₚ eps0))).
Proof.
  intros Hmain Hlook Hpc Hval Hr Hs Hb.
  assert (Hstep : step remote self (Task i) st =
                  Some (enter remote self i (t_episode t) st)).
  { simpl. unfold play_episode. rewrite Hmain, Hlook.
    assert (Hv : (0 <? st_value st)%Z = true) by lia.
    destruct (t_pc t); try discriminate; now rewrite Hv. }
  set (st1 := enter remote self i (t_episode t) st) in *.
  assert (Heq : st1 = release_and_end i Finished
                  (set_world {| file := file (st_world st);
                                calls := play_request self (t_episode t) :: calls (st_world st);
                                stdout := OutFailed (t_episode t) j :: stdout (st_world st) |}
                     (entered i (t_episode t) st))).
  { subst st1. unfold enter.
    now rewrite (play_episode_body_refused _ _ r j Hr Hs Hb). }
  exists st1. split; [exact Hstep |].
  split; [rewrite Heq; simpl; now rewrite list_lookup_alter_eq, Hlook |].
  split; [rewrite Heq; reflexivity |].
  split; [rewrite Heq; exact Hmain |].
  split; [rewrite Heq; simpl; lia |].
  split; [rewrite Heq; reflexivity |].
  intros Hst Hfail acts st2 Hacts Hrun Hans.
  assert (Hst1 : R st1) by (now apply (reach_step _ _ _ _ _ (Task i) st)).
  assert (Hst2 : R st2) by (now apply (reachable_run acts st1)).
  destruct (task_moves_bounded acts st1 st2 Hacts Hrun) as (Hle & Hm & Hc & _).
  assert (Hmain2 : st_main st2 = AtGather) by (rewrite Hm, Heq; exact Hmain).
  assert (Hcyc2 : st_cycle st2 = st_cycle st) by (rewrite Hc, Heq; reflexivity).
  assert (Hfail2 : st_failure st2 = None).
  { rewrite (well_answered_run acts st1 st2 Hacts Hrun Hans), Heq. exact Hfail. }
  split; [lia |]. split; [exact Hfail2 |].
  destruct (forallb (fun t => ended (t_pc t)) (st_tasks st2)) eqn:Hall.
  - right. intros rand. exists (advanced st2).
    split; [now apply barrier_opens |].
    split; [reflexivity |]. split; [simpl; now rewrite Hcyc2 |].
    rewrite <- Hcyc2. now apply (ended_cycle_dispatched st2 Hst2).
  - left.
    assert (Hmax : (1 <= max_concurrent)%Z).
    { destruct (semaphore_accounting st Hst) as (Hsum & _).
      pose proof (holding_nonneg (st_tasks st)). lia. }
    destruct (no_deadlock st2 Hst2 Hmax Hmain2 Hall) as (k & st3 & Hk).
    now exists k, st3.
Qed.

(** ** The kill switch *)

Lemma is_enabled_keeps w :
  calls (snd (is_enabled w)) = calls w /\ file (snd (is_enabled w)) = file w.
Proof.
  unfold_m. destruct (file w) as [| |text|d] eqn:Hf; simpl;
    try (split; [reflexivity | now rewrite Hf]).
  destruct (spotify_get d "enabled" (JBool false)) as [v|e]; simpl;
    [| destruct (is_read_failure e); simpl ];
    (split; [reflexivity | now rewrite Hf]).
Qed.

(** Before the first check of the flag nothing has been sent or printed. *)
Lemma first_entry st :
  R st ->
  st_main st = AtLoop ->
  st_cycle st = 0 ->
  st_trace st = [] /\
  calls (st_world st) = calls w0 /\ stdout (st_world st) = stdout w0.
Proof.
  intros Hst Hmain Hcycle. split.
  - destruct (loop_shape st Hst) as (_ & _ & _ & Hlt). specialize (Hlt Hmain).
    destruct (st_trace st) as [|ev tr]; [reflexivity |].
    apply Forall_cons in Hlt as [Hev _]. lia.
  - revert Hmain Hcycle. pattern st. revert st Hst. apply reachable_cases.
    + auto.
    + intros st f _ IH Hmain Hcycle. now apply IH.
    + intros st rand _ _ _.
      destruct (loop_head_cases rand st) as [(e & w & ->) | [(w & ->) | (w & ->)]];
        simpl; discriminate.
    + intros st e _ _ _ _. simpl. discriminate.
    + intros st _ _ _ _ _. simpl. discriminate.
    + intros st i t _ _ Hmain _ _ _. simpl. congruence.
    + intros st i t _ _ Hmain _ _ _.
      destruct (enter_cases i (t_episode t) st) as [[w ->] | [[w ->] | (w & e & ->)]];
        simpl; congruence.
    + intros st i t _ _ Hmain _ _. simpl. congruence.
Qed.

(** C8: when the loop is entered for the first time and the check of the
    enabled flag gives a value Python takes for false (the document says
    [false], has no flag, or cannot be read as JSON), resuming
    [play_randomly] makes it print its message and return: no exception, no
    request sent, no shuffle and no task in the history, and nothing left to
    resume. *)
Theorem disabled_at_first_entry st rand v w :
  reachable remote self max_concurrent w0 eps0 st ->
  st_main st = AtLoop ->
  st_cycle st = 0 ->
  is_enabled (st_world st) = (Ok v, w) ->
  truthy v = false ->
  exists st',
    step remote self (Main rand) st = Some st' /\
    st_main st' = Returned /\
    calls (st_world st') = calls w0 /\
    stdout (st_world st') = OutDisabled :: stdout w /\
    st_trace st' = [EvCheck 0] /\
    (forall rand' i, step remote self (Main rand') st' = None /\
                     step remote self (Task i) st' = None).
Proof.
  intros Hst Hmain Hcycle Hen Hv.
  destruct (first_entry st Hst Hmain Hcycle) as (Htr & Hcalls & _).
  pose proof (is_enabled_keeps (st_world st)) as [Hk _]. rewrite Hen in Hk. simpl in Hk.
  eexists. split.
  - simpl. unfold main_step. rewrite Hmain. unfold loop_head. rewrite Hen, Hv. simpl.
    reflexivity.
  - simpl. rewrite Htr, Hcycle. repeat split; congruence.
Qed.

End Loop.

(** * The statements at sample inputs *)

Lemma reachable_state_after remote acts :
  reachable remote sample_fetcher 2 sample_world sample_episodes (state_after remote acts).
Proof.
  unfold state_after.
  destruct (run remote sample_fetcher acts _) as [st|] eqn:Hrun; simpl.
  - eapply reachable_run; [apply reach_start | exact Hrun].
  - apply reach_start.
Qed.

(** C1 at the sample schedule: two tasks asleep inside the semaphore of two
    units, one ended. *)
Lemma in_flight_bounded_witness :
  let st := state_after remote_granting sample_schedule in
  map t_pc (st_tasks st) = [Finished; Sleeping; Sleeping] /\
  never_exceeds 2 (st_trace st) /\
  put_after_acquire 2 (st_trace st) /\
  (holding (st_tasks st) <= 2)%Z.
Proof.
  split; [reflexivity |].
  exact (in_flight_bounded remote_granting sample_fetcher 2 sample_world sample_episodes
           _ (reachable_state_after remote_granting sample_schedule)).
Defined.

(** C2 at a history that reaches into the second iteration. *)
Lemma cycles_do_not_overlap_witness :
  let st := state_after remote_granting sample_two_cycles in
  st_cycle st = 1 /\ barrier_respected 3 (st_trace st).
Proof.
  split; [reflexivity |].
  exact (cycles_do_not_overlap remote_granting sample_fetcher 2 sample_world sample_episodes
           _ (reachable_state_after remote_granting sample_two_cycles)).
Defined.

(** C3 at the same history: the first iteration sent "a", "b" and "c". *)
Lemma cycle_dispatches_each_once_witness :
  let st := state_after remote_granting sample_two_cycles in
  st_episodes st = [JStr "a"; JStr "b"; JStr "c"] /\
  puts_of 0 (st_trace st) = [JStr "b"; JStr "c"; JStr "a"] /\
  puts_of 0 (st_trace st) ≡ₚ sample_episodes /\
  calls (st_world st) =
    map (play_request sample_fetcher) [JStr "a"; JStr "b"; JStr "c"; JStr "a"].
Proof.
  split; [reflexivity |]. split; [reflexivity |].
  destruct (cycle_dispatches_each_once remote_granting sample_fetcher 2 sample_world
              sample_episodes _ (reachable_state_after remote_granting sample_two_cycles))
    as (Hdone & _ & Hcalls).
  split; [apply Hdone; vm_compute; constructor | exact Hcalls].
Defined.

(** C4 at a cached token that the probe rejects, the exchange granting
    "fresh". *)
Lemma get_access_token_exchange_witness :
  exists w',
    get_access_token remote_granting sample_self sample_world = (Ok (JStr "fresh"), w') /\
    exchanges (calls w') = 1 /\
    exists d', read_json w' = (Ok d', w') /\ field d' "access_token" = Some (JStr "fresh").
Proof.
  destruct (get_access_token_exchange remote_granting sample_self sample_world sample_doc
              {| status_code := 401; body := Some (JObj {[ "error" := JStr "expired" ]}) |}
              eq_refl eq_refl (fun _ => eq_refl))
    as (res & w' & Hrun & _ & Hcount & _ & Hnew).
  destruct (Hnew _ eq_refl _ eq_refl) as (Hres & Hfile).
  exists w'. split; [rewrite Hrun; now rewrite Hres |].
  split; [exact Hcount | exact Hfile].
Defined.

(** C4 as stated fails: the cached token "old" is rejected by the probe, the
    exchange is refused with status 400, and [get_access_token] raises; no
    token is returned and the file still holds "old". *)
Lemma exchange_refused_returns_no_token :
  field sample_doc "access_token" = Some (JStr "old") /\
  remote_refusing [] (GetMe (JStr "old")) =
    json_reply 400 (JObj {[ "error" := JStr "invalid_client" ]}) /\
  get_access_token remote_refusing sample_self sample_world =
    (Raise (TokenFetchFailed 400 (JObj {[ "error" := JStr "invalid_client" ]})),
     {| file := Document sample_doc;
        calls := [PostToken (JStr "id") (JStr "secret"); GetMe (JStr "old")];
        stdout := [] |}).
Proof. repeat split. Qed.

(** C5 at the sample document without its device_id. *)
Lemma init_missing_field_fails_witness :
  let w := world_of (Document (JObj {[ "spotify" := JObj (delete "device_id" sample_section) ]})) in
  init remote_granting w = (Raise (ValueError missing_message), w).
Proof.
  intros w.
  apply (init_missing_field_fails remote_granting w
           (JObj {[ "spotify" := JObj (delete "device_id" sample_section) ]}) "device_id").
  - reflexivity.
  - reflexivity.
  - unfold required_fields. do 4 apply list_elem_of_further. apply list_elem_of_here.
  - reflexivity.
Defined.

(** C6 at the sample document. *)
Lemma update_credentials_file_frame_witness :
  exists w' d',
    update_credentials_file (JStr "new") sample_world = (Ok tt, w') /\
    read_json w' = (Ok d', w') /\
    field d' "access_token" = Some (JStr "new") /\
    (forall key, key <> "access_token" -> field d' key = field sample_doc key) /\
    (forall key, key <> "spotify" -> top d' key = top sample_doc key).
Proof.
  destruct (update_credentials_file_frame sample_world sample_doc (JStr "new") eq_refl)
    as (res & w' & d' & Hrun & Hread & Hfield & Htop & _ & _ & Hwf).
  destruct (Hwf eq_refl) as [Hres Htok].
  exists w', d'. rewrite <- Hres. repeat split; assumption.
Defined.

(** C7 at the first task of an iteration, the service answering every play
    command with 403 and a JSON body: the first task prints its failure and
    ends, the two others follow in the order the event loop runs them, and
    the loop moves on to its second iteration. *)
Lemma refused_play_is_not_fatal_witness :
  let st := state_after remote_forbidding [Main fixed_rand] in
  let st2 := state_after remote_forbidding [Main fixed_rand; Task 0; Task 1; Task 2] in
  exists st1 st3,
    step remote_forbidding sample_fetcher (Task 0) st = Some st1 /\
    st_failure st1 = None /\
    stdout (st_world st1) =
      [OutFailed (JStr "a") (JObj {[ "error" := JStr "premium required" ]})] /\
    run remote_forbidding sample_fetcher [Task 1; Task 2] st1 = Some st2 /\
    step remote_forbidding sample_fetcher (Main fixed_rand) st2 = Some st3 /\
    st_main st3 = AtLoop /\
    st_cycle st3 = 1.
Proof.
  intros st st2.
  destruct (refused_play_is_not_fatal remote_forbidding sample_fetcher 2 sample_world
              sample_episodes st 0 {| t_episode := JStr "a"; t_pc := Created |}
              {| status_code := 403;
                 body := Some (JObj {[ "error" := JStr "premium required" ]}) |}
              (JObj {[ "error" := JStr "premium required" ]})
              eq_refl eq_refl eq_refl eq_refl eq_refl
              ltac:(discriminate) eq_refl)
    as (st1 & Hstep & _ & Hfail & _ & _ & Hout & Hrest).
  assert (Hst1 : step remote_forbidding sample_fetcher (Task 0) st =
                 Some (state_after remote_forbidding [Main fixed_rand; Task 0]))
    by (vm_compute; reflexivity).
  rewrite Hst1 in Hstep. injection Hstep as <-.
  assert (Hrun : run remote_forbidding sample_fetcher [Task 1; Task 2]
                     (state_after remote_forbidding [Main fixed_rand; Task 0]) = Some st2)
    by (vm_compute; reflexivity).
  assert (Hans : well_answered remote_forbidding sample_fetcher [Task 1; Task 2]
                   (state_after remote_forbidding [Main fixed_rand; Task 0])).
  { apply decodable_well_answered. intros h ep. simpl. right. eexists. reflexivity. }
  destruct (Hrest (reachable_state_after remote_forbidding [Main fixed_rand]) eq_refl
              [Task 1; Task 2] st2 ltac:(repeat constructor) Hrun Hans)
    as (_ & _ & [(k & st3 & Hk) | Hnext]).
  - exfalso. destruct k as [|[|[|k]]]; vm_compute in Hk; discriminate Hk.
  - destruct (Hnext fixed_rand) as (st3 & Hmain & Hloop & Hcycle & _).
    exists (state_after remote_forbidding [Main fixed_rand; Task 0]), st3.
    split; [exact Hst1 |]. split; [exact Hfail |]. split; [exact Hout |].
    split; [exact Hrun |]. split; [exact Hmain |]. split; [exact Hloop |].
    rewrite Hcycle. vm_compute. reflexivity.
Defined.

(** C7 as stated fails, in the order the event loop runs the tasks: the
    play command for "a" is answered 502 with a body that is not JSON and
    [response.json()] raises within its task; the two other tasks send
    their commands and go to sleep; [play_randomly], resumed, raises the
    exception of the first task.  The iteration is not completed ("c" and
    "b" never finish), there is no next iteration, and nothing runs again. *)
Lemma undecodable_refusal_aborts :
  let st := state_after remote_flaky
              [Main fixed_rand; Task 0; Task 1; Task 2; Main fixed_rand] in
  remote_flaky [] (play_request sample_fetcher (JStr "a")) =
    Resp {| status_code := 502; body := None |} /\
  st_main st = Raised ResponseJSONDecodeError /\
  map t_pc (st_tasks st) = [Failed ResponseJSONDecodeError; Sleeping; Sleeping] /\
  calls (st_world st) =
    map (play_request sample_fetcher) [JStr "b"; JStr "c"; JStr "a"] /\
  stdout (st_world st) = [OutPlaying (JStr "b"); OutPlaying (JStr "c")] /\
  st_cycle st = 0 /\
  (forall a, is_main a = true \/ (exists i, a = Task i) ->
             step remote_flaky sample_fetcher a st = None).
Proof.
  repeat split.
  intros a [Ha | [i ->]]; [destruct a; try discriminate |]; reflexivity.
Qed.

(** C8 at a file edited to [enabled: false] before the loop first checks. *)
Lemma disabled_at_first_entry_witness :
  let st := state_after remote_granting [Edit (Document disabled_doc)] in
  exists st',
    step remote_granting sample_fetcher (Main fixed_rand) st = Some st' /\
    st_main st' = Returned /\
    calls (st_world st') = [] /\
    stdout (st_world st') = [OutDisabled] /\
    st_trace st' = [EvCheck 0].
Proof.
  intros st.
  destruct (disabled_at_first_entry remote_granting sample_fetcher 2 sample_world
              sample_episodes st fixed_rand (JBool false) (st_world st)
              (reachable_state_after remote_granting [Edit (Document disabled_doc)])
              eq_refl eq_refl eq_refl eq_refl)
    as (st' & Hstep & Hmain & Hcalls & Hout & Htrace & _).
  exists st'. repeat split; assumption.
Defined.

(** C9, as amended, at a missing file. *)
Lemma is_enabled_lenient_witness :
  exists w',
    is_enabled (world_of Missing) = (Ok (JBool false), w') /\
    stdout w' = [OutReadError].
Proof.
  destruct (is_enabled_lenient (world_of Missing) (or_introl eq_refl))
    as (v & w' & Hrun & _ & _ & Hv & Hout).
  exists w'. split; [now rewrite Hrun, Hv | exact Hout].
Defined.

(** C9 as stated fails: a file holding the JSON list [[]], and a file that
    cannot be opened, make [is_enabled] raise. *)
Lemma is_enabled_raises :
  is_enabled (world_of (Document (JArr []))) =
    (Raise AttributeError, world_of (Document (JArr []))) /\
  is_enabled (world_of (Document (JObj {[ "spotify" := JStr "off" ]}))) =
    (Raise AttributeError, world_of (Document (JObj {[ "spotify" := JStr "off" ]}))) /\
  is_enabled (world_of Unreadable) = (Raise PermissionError, world_of Unreadable).
Proof. repeat split. Qed.

(** C10 at a file holding text that is not JSON. *)
Lemma update_credentials_file_replaces_witness :
  update_credentials_file (JStr "new") (world_of (Garbage "{oops")) =
    (Ok tt, world_of (Document (JObj {[ "spotify" := JObj {[ "access_token" := JStr "new" ]} ]}))).
Proof.
  exact (update_credentials_file_replaces (world_of (Garbage "{oops")) (JStr "new")
           (or_intror (ex_intro _ "{oops" eq_refl))).
Defined.

(** * Further properties of the credential store and the token authority *)

Section StoreMore.

Variable remote : list request -> request -> http_outcome.

(** X1: when the credentials file is missing or does not hold JSON,
    [load_client_credentials] raises [FileNotFoundError] with the message of
    its [except] clause, and so does the constructor, before any request is
    sent or anything is written. *)
Theorem load_client_credentials_unreadable w :
  file w = Missing \/ (exists text, file w = Garbage text) ->
  load_client_credentials w = (Raise (FileNotFoundError config_message), w) /\
  init remote w = (Raise (FileNotFoundError config_message), w).
Proof.
  intros [Hf | [text Hf]]; unfold_m; rewrite Hf; simpl; split; reflexivity.
Qed.

Lemma not_missing_truthy d key dflt :
  missing_or_empty d key = false ->
  exists v, field d key = Some v /\ default dflt (field d key) = v /\ truthy v = true.
Proof.
  unfold missing_or_empty. destruct (field d key) as [v|]; [| discriminate].
  intros Hv. exists v. repeat split. now apply negb_false_iff in Hv.
Qed.

Lemma load_client_credentials_complete w d :
  file w = Document d ->
  well_formed d = true ->
  (forall key, key ∈ required_fields -> missing_or_empty d key = false) ->
  load_client_credentials w = (Ok (credentials_of d), w).
Proof.
  intros Hf Hwf Hall.
  assert (Hin : forall key, In key required_fields -> missing_or_empty d key = false)
    by (intros key Hk; apply Hall; now apply list_elem_of_In).
  unfold_m. unfold credentials_of. rewrite Hf.
  rewrite !(spotify_get_well_formed d _ _ Hwf).
  destruct (not_missing_truthy d "client_id" JNull) as (v1 & _ & -> & ->);
    [apply Hin; simpl; auto |].
  destruct (not_missing_truthy d "client_secret" JNull) as (v2 & _ & -> & ->);
    [apply Hin; simpl; auto |].
  destruct (not_missing_truthy d "podcast_id" JNull) as (v3 & _ & -> & ->);
    [apply Hin; simpl; auto |].
  destruct (not_missing_truthy d "episode_ids" (JArr [])) as (v4 & _ & -> & ->);
    [apply Hin; simpl; auto 6 |].
  destruct (not_missing_truthy d "device_id" JNull) as (v5 & _ & -> & ->);
    [apply Hin; simpl; auto 6 |].
  reflexivity.
Qed.

(** X2: for a JSON object whose "spotify" entry is an object (or absent),
    [load_client_credentials] returns normally exactly when each of the five
    required fields is there with a value Python takes for true; it then
    returns the five stored values, and otherwise raises [ValueError]. *)
Theorem load_client_credentials_succeeds_iff w d :
  file w = Document d ->
  well_formed d = true ->
  ((forall key, key ∈ required_fields -> missing_or_empty d key = false) ->
   load_client_credentials w = (Ok (credentials_of d), w)) /\
  ((exists key, key ∈ required_fields /\ missing_or_empty d key = true) ->
   load_client_credentials w = (Raise (ValueError missing_message), w)) /\
  ((forall key, key ∈ required_fields -> missing_or_empty d key = false) \/
   (exists key, key ∈ required_fields /\ missing_or_empty d key = true)).
Proof.
  intros Hf Hwf. split; [| split].
  - now apply load_client_credentials_complete.
  - intros (key & Hkey & Hmiss).
    now apply (load_client_credentials_missing_field w d key).
  - destruct (forallb (fun key => negb (missing_or_empty d key)) required_fields) eqn:Hall.
    + left. intros key Hkey. rewrite forallb_forall in Hall.
      apply list_elem_of_In in Hkey. specialize (Hall key Hkey).
      now apply negb_true_iff in Hall.
    + right. apply not_true_iff_false in Hall.
      rewrite forallb_forall in Hall.
      destruct (existsb (fun key => missing_or_empty d key) required_fields) eqn:Hex.
      * apply existsb_exists in Hex as (key & Hkey & Hmiss).
        exists key. split; [now apply list_elem_of_In | exact Hmiss].
      * exfalso. apply Hall. intros key Hkey.
        apply negb_true_iff. apply not_true_iff_false. intros Hmiss.
        apply not_true_iff_false in Hex. apply Hex.
        apply existsb_exists. now exists key.
Qed.

(** X3: whatever the file holds, [load_client_credentials] leaves the world
    as it found it: it sends no request, writes nothing and prints nothing. *)
Theorem load_client_credentials_leaves_world w :
  snd (load_client_credentials w) = w.
Proof.
  unfold_m. destruct (file w) as [| |text|d]; simpl; try reflexivity.
  repeat match goal with
         | |- context [spotify_get d ?k ?x] =>
             destruct (spotify_get d k x) as [?|?]; simpl
         | |- context [is_read_failure ?e] => destruct (is_read_failure e); simpl
         | |- context [if ?b then _ else _] => destruct b; simpl
         end; reflexivity.
Qed.

(** X4: when the credentials file is missing or does not hold JSON,
    [get_access_token] raises [FileNotFoundError] with the message of its
    [except] clause; neither the probe nor the exchange is sent. *)
Theorem get_access_token_unreadable self w :
  file w = Missing \/ (exists text, file w = Garbage text) ->
  get_access_token remote self w = (Raise (FileNotFoundError config_message), w).
Proof.
  intros [Hf | [text Hf]]; unfold_m; rewrite Hf; reflexivity.
Qed.

(** X5: when the probe of a cached token ends in a network error, the
    error leaves [get_access_token] as it is: the probe is the only request
    sent, no exchange is tried and the file is not written. *)
Theorem get_access_token_probe_network_error self w d t :
  file w = Document d ->
  well_formed d = true ->
  field d "access_token" = Some t ->
  truthy t = true ->
  remote (calls w) (GetMe t) = NetErr ->
  get_access_token remote self w =
    (Raise ConnectionError,
     {| file := file w; calls := GetMe t :: calls w; stdout := stdout w |}).
Proof.
  intros Hf Hwf Ht Htrue Hnet. unfold_m. rewrite Hf.
  rewrite (spotify_get_well_formed _ _ _ Hwf), Ht. simpl.
  rewrite Htrue, Hnet. rewrite Hf. reflexivity.
Qed.

(** X6: when the token endpoint answers with a body that is not JSON,
    [request_new_token] raises the decoding error of [response.json()],
    whatever the status: with a status other than 200 the exception that
    was to report the status is never built.  One exchange has been sent and
    the file is not written. *)
Theorem request_new_token_undecodable_body self w r :
  remote (calls w) (PostToken (client_id self) (client_secret self)) = Resp r ->
  body r = None ->
  request_new_token remote self w =
    (Raise ResponseJSONDecodeError,
     {| file := file w;
        calls := PostToken (client_id self) (client_secret self) :: calls w;
        stdout := stdout w |}).
Proof.
  intros Hr Hb. unfold request_new_token, http, bind, lift, raise. rewrite Hr.
  unfold response_json. rewrite Hb.
  destruct (negb (status_code r =? 200)%Z); reflexivity.
Qed.

(** X7: a token obtained by an exchange is found again at the next start:
    when the exchange answers 200 with a JSON object whose access_token
    Python takes for true, [request_new_token] returns it, and in the world
    it leaves, [get_access_token], with a service that accepts that token,
    returns it after the probe alone, with no new exchange. *)
Theorem persisted_token_is_reused self w d r m tok :
  file w = Document d ->
  well_formed d = true ->
  remote (calls w) (PostToken (client_id self) (client_secret self)) = Resp r ->
  status_code r = 200%Z ->
  body r = Some (JObj m) ->
  m !! "access_token" = Some tok ->
  truthy tok = true ->
  exists w1,
    request_new_token remote self w = (Ok tok, w1) /\
    forall later self' r',
      later (calls w1) (GetMe tok) = Resp r' ->
      status_code r' = 200%Z ->
      get_access_token later self' w1 =
        (Ok tok, {| file := file w1; calls := GetMe tok :: calls w1; stdout := stdout w1 |}).
Proof.
  intros Hf Hwf Hr Hs Hb Hm Htrue.
  pose proof (request_new_token_outcome remote self w d r Hf Hwf Hr) as Hout.
  rewrite Hs in Hout. simpl in Hout. specialize (Hout m Hb).
  rewrite Hm in Hout. simpl in Hout.
  eexists. split; [exact Hout |].
  intros later self' r' Hr' Hs'.
  set (w1 := set_file _ _).
  assert (Hf1 : file w1 = Document (with_token d tok)) by reflexivity.
  pose proof (with_token_well_formed d tok Hwf) as Hwf1.
  unfold get_access_token, bind.
  rewrite (cached_valid_token_document later w1 (with_token d tok) r' Hf1 Hwf1).
  - rewrite with_token_field by assumption. simpl.
    rewrite Htrue, Hs'. reflexivity.
  - rewrite with_token_field by assumption. simpl. intros _. exact Hr'.
Qed.

Lemma update_credentials_file_fresh tok w :
  file w = Missing \/ (exists text, file w = Garbage text) ->
  update_credentials_file tok w =
    (Ok tt, set_file (Document (JObj {[ "spotify" := JObj {[ "access_token" := tok ]} ]})) w).
Proof.
  intros [Hf | [text Hf]]; unfold_m; rewrite Hf; simpl;
    rewrite lookup_empty; simpl; rewrite insert_insert_eq, !insert_empty; reflexivity.
Qed.

Lemma update_credentials_file_shape_error w d :
  file w = Document d ->
  well_formed d = false ->
  exists e, forall tok, update_credentials_file tok w = (Raise e, w).
Proof.
  intros Hf Hwf. unfold_m. rewrite Hf.
  destruct d as [| | | | | |m]; simpl; eauto.
  simpl in Hwf.
  destruct (m !! "spotify") as [[| | | | | |s]|] eqn:Hs; try discriminate; simpl; eauto.
Qed.

Lemma fresh_document_well_formed (s : gmap string json) :
  well_formed (JObj {[ "spotify" := JObj s ]}) = true.
Proof. simpl. now rewrite lookup_singleton_eq. Qed.

Lemma with_token_fresh t1 t2 :
  with_token (JObj {[ "spotify" := JObj {[ "access_token" := t1 ]} ]}) t2 =
  JObj {[ "spotify" := JObj {[ "access_token" := t2 ]} ]}.
Proof.
  simpl. rewrite lookup_singleton_eq. rewrite <- !insert_empty.
  now rewrite !insert_insert_eq.
Qed.

Lemma with_token_twice d t1 t2 :
  well_formed d = true ->
  with_token (with_token d t1) t2 = with_token d t2.
Proof.
  destruct d as [| | | | | |m]; try discriminate. simpl.
  destruct (m !! "spotify") as [[| | | | | |s]|] eqn:Hs; try discriminate; intros _;
    simpl; rewrite lookup_insert_eq, !insert_insert_eq; try reflexivity;
    do 3 f_equal; rewrite <- !insert_empty; now rewrite insert_insert_eq.
Qed.

(** X8: of two tokens written one after the other, the second is the one
    that stays: whatever the file holds, updating with [t1] and then with
    [t2] leaves the same result and the same world as updating with [t2]
    alone (the same file, or the same exception and an untouched file). *)
Theorem update_credentials_file_last_write_wins t1 t2 w :
  (update_credentials_file t1 ;; update_credentials_file t2) w =
  update_credentials_file t2 w.
Proof.
  unfold bind.
  destruct (file w) as [| |text|d] eqn:Hf.
  - rewrite !(update_credentials_file_fresh _ w) by auto.
    rewrite (update_credentials_file_document
               (set_file (Document (JObj {[ "spotify" := JObj {[ "access_token" := t1 ]} ]})) w)
               (JObj {[ "spotify" := JObj {[ "access_token" := t1 ]} ]}) t2
               eq_refl (fresh_document_well_formed _)).
    now rewrite with_token_fresh.
  - unfold_m. rewrite Hf. reflexivity.
  - rewrite !(update_credentials_file_fresh _ w) by eauto.
    rewrite (update_credentials_file_document
               (set_file (Document (JObj {[ "spotify" := JObj {[ "access_token" := t1 ]} ]})) w)
               (JObj {[ "spotify" := JObj {[ "access_token" := t1 ]} ]}) t2
               eq_refl (fresh_document_well_formed _)).
    now rewrite with_token_fresh.
  - destruct (well_formed d) eqn:Hwf.
    + rewrite !(update_credentials_file_document w d _ Hf Hwf).
      rewrite (update_credentials_file_document
                 (set_file (Document (with_token d t1)) w) (with_token d t1) t2 eq_refl
                 (with_token_well_formed d t1 Hwf)).
      now rewrite with_token_twice.
    + destruct (update_credentials_file_shape_error w d Hf Hwf) as [e He].
      now rewrite !He.
Qed.

(** X9: a file that [update_credentials_file] had to replace because it was
    missing or did not hold JSON no longer configures the program: from the
    file it leaves, [load_client_credentials] raises [ValueError] for the
    missing fields, and [is_enabled] silently returns [False]. *)
Theorem replaced_document_fails_next_start tok w :
  file w = Missing \/ (exists text, file w = Garbage text) ->
  exists w',
    update_credentials_file tok w = (Ok tt, w') /\
    load_client_credentials w' = (Raise (ValueError missing_message), w') /\
    is_enabled w' = (Ok (JBool false), w').
Proof.
  intros Hf. eexists. split; [now apply update_credentials_file_fresh |].
  set (d := JObj {[ "spotify" := JObj {[ "access_token" := tok ]} ]}).
  set (w' := set_file (Document d) w).
  assert (Hwf : well_formed d = true) by apply fresh_document_well_formed.
  assert (Hfield : forall key, key <> "access_token" -> field d key = None).
  { intros key Hne. unfold d, field. rewrite lookup_singleton_eq.
    now apply lookup_singleton_ne. }
  split.
  - apply (load_client_credentials_missing_field w' d "client_id" eq_refl Hwf).
    + unfold required_fields. apply list_elem_of_here.
    + unfold missing_or_empty. now rewrite Hfield.
  - unfold_m. simpl. rewrite (spotify_get_well_formed _ _ _ Hwf).
    now rewrite Hfield.
Qed.

(** X10: the constructor on a complete document whose cached token the
    service accepts: it returns a fetcher holding the five stored values
    and the cached token, having sent the probe and nothing else, and
    having left the file and the output as they were. *)
Theorem init_with_valid_cached_token w d t r :
  file w = Document d ->
  well_formed d = true ->
  (forall key, key ∈ required_fields -> missing_or_empty d key = false) ->
  field d "access_token" = Some t ->
  truthy t = true ->
  remote (calls w) (GetMe t) = Resp r ->
  status_code r = 200%Z ->
  init remote w =
    (Ok {| self_credentials := credentials_of d; access_token := t |},
     {| file := file w; calls := GetMe t :: calls w; stdout := stdout w |}).
Proof.
  intros Hf Hwf Hall Ht Htrue Hr Hs.
  unfold init, bind.
  rewrite (load_client_credentials_complete w d Hf Hwf Hall).
  unfold get_access_token, bind.
  rewrite (cached_valid_token_document remote w d r Hf Hwf).
  - rewrite Ht. simpl. rewrite Htrue, Hs. reflexivity.
  - rewrite Ht. simpl. intros _. exact Hr.
Qed.

End StoreMore.

(** * Further properties of the playback loop *)

Section LoopMore.

Variable remote : list request -> request -> http_outcome.
Variable self : fetcher.
Variable max_concurrent : Z.
Variable w0 : world.
Variable eps0 : list json.

#[local] Abbreviation Reach := (reachable remote self max_concurrent w0 eps0).

(** X11: no unit of the semaphore is ever lost, whether tasks return or
    raise: the counter stays between 0 and [max_concurrent], it is
    [max_concurrent] less the tasks suspended inside [async with], and it is
    back at [max_concurrent] at the head of every iteration and whenever all
    tasks have ended. *)
Theorem semaphore_never_leaks st :
  reachable remote self max_concurrent w0 eps0 st ->
  (0 <= max_concurrent)%Z ->
  (0 <= st_value st <= max_concurrent)%Z /\
  st_value st = (max_concurrent - holding (st_tasks st))%Z /\
  (st_main st = AtLoop -> st_value st = max_concurrent) /\
  (forallb (fun t => ended (t_pc t)) (st_tasks st) = true ->
   st_value st = max_concurrent).
Proof.
  intros Hst Hmax.
  destruct (semaphore_accounting remote self max_concurrent w0 eps0 st Hst)
    as (Hsum & _ & Hloop & _ & Hpos).
  pose proof (holding_nonneg (st_tasks st)) as Hnn.
  specialize (Hpos Hmax).
  repeat split; try lia.
  - intros Hmain. specialize (Hloop Hmain). lia.
  - intros Hall. pose proof (holding_all_ended _ Hall). lia.
Qed.

Lemma created_no_put (eps : list json) :
  Forall (fun t => has_put (t_pc t) = false)
         (map (fun ep => {| t_episode := ep; t_pc := Created |}) eps).
Proof. induction eps as [|ep eps IH]; simpl; constructor; auto. Qed.

Lemma ended_has_put pc : ended pc = true -> has_put pc = true.
Proof. destruct pc; simpl; congruence. Qed.

(** With no unit to give, no task gets through the semaphore. *)
Lemma nothing_enters st :
  (max_concurrent <= 0)%Z ->
  Reach st ->
  all_puts (st_trace st) = [] /\
  Forall (fun t => has_put (t_pc t) = false) (st_tasks st) /\
  (eps0 <> [] -> st_cycle st = 0 /\ (st_main st = AtGather -> st_tasks st <> [])).
Proof.
  intros Hmax Hst. pattern st. revert st Hst. apply reachable_cases.
  - simpl. destruct (max_concurrent <? 0)%Z; repeat split; auto; discriminate.
  - intros st f _ IH. exact IH.
  - intros st rand Hst (Hp & Hf & Hc) _.
    destruct (loop_shape remote self max_concurrent w0 eps0 st Hst) as (He & _).
    destruct (loop_head_cases rand st) as [(e & w & ->) | [(w & ->) | (w & ->)]];
      simpl; (split; [exact Hp |]); (split; [auto using created_no_put |]);
      intros Hne; (split; [now apply Hc |]); intros Hmain; try discriminate.
    intros Hnil. apply Hne.
    apply map_eq_nil in Hnil. apply Permutation_nil_r.
    rewrite <- Hnil, shuffle_Permutation. now symmetry.
  - intros st e _ (Hp & Hf & Hc) _ _. simpl.
    split; [exact Hp |]. split; [exact Hf |].
    intros Hne. split; [now apply Hc | discriminate].
  - intros st _ (Hp & Hf & Hc) Hmain _ Hall. simpl.
    split; [exact Hp |]. split; [exact Hf |].
    intros Hne. exfalso. destruct (Hc Hne) as [_ Hts]. specialize (Hts Hmain).
    destruct (st_tasks st) as [|t ts]; [congruence |].
    simpl in Hall. apply andb_true_iff in Hall as [Ht _].
    apply ended_has_put in Ht. apply Forall_cons in Hf as [Hf _]. congruence.
  - intros st i t _ (Hp & Hf & Hc) Hmain Hlook Hpc _. simpl.
    split; [exact Hp |]. split; [apply Forall_alter; auto |].
    intros Hne. destruct (Hc Hne) as [Hcyc Hts]. split; [exact Hcyc |].
    intros _ Hnil. apply (Hts Hmain).
    apply (f_equal length) in Hnil. rewrite length_alter in Hnil.
    now destruct (st_tasks st).
  - intros st i t Hst _ Hmain _ _ Hval. exfalso.
    destruct (semaphore_accounting remote self max_concurrent w0 eps0 st Hst)
      as (Hsum & _).
    pose proof (holding_nonneg (st_tasks st)). lia.
  - intros st i t _ (Hp & Hf & Hc) _ Hlook Hpc. exfalso.
    pose proof (Forall_lookup_1 _ _ _ _ Hf Hlook) as Hno. simpl in Hno.
    rewrite Hpc in Hno. discriminate.
Qed.

(** X12: [play_randomly(0)] never plays anything: whatever the schedule, no
    play command is sent since the loop started, no task ever gets through
    the semaphore, and with a non-empty episode list the loop never leaves
    its first iteration. *)
Theorem zero_concurrency_plays_nothing st :
  max_concurrent = 0%Z ->
  reachable remote self max_concurrent w0 eps0 st ->
  calls (st_world st) = calls w0 /\
  Forall (fun t => has_put (t_pc t) = false) (st_tasks st) /\
  (eps0 <> [] -> st_cycle st = 0) /\
  (eps0 <> [] -> st_main st = AtGather ->
   forallb (fun t => ended (t_pc t)) (st_tasks st) = false).
Proof.
  intros Hmax Hst.
  destruct (nothing_enters st ltac:(lia) Hst) as (Hp & Hf & Hc).
  split.
  - rewrite (puts_are_requests remote self max_concurrent w0 eps0 st Hst), Hp.
    reflexivity.
  - split; [exact Hf |]. split; [intros Hne; now apply Hc |].
    intros Hne Hmain. destruct (Hc Hne) as [_ Hts]. specialize (Hts Hmain).
    destruct (st_tasks st) as [|t ts]; [congruence |].
    apply Forall_cons in Hf as [Hf _]. simpl.
    destruct (ended (t_pc t)) eqn:Ht; [| reflexivity].
    apply ended_has_put in Ht. congruence.
Qed.

(** X13: with a negative [max_concurrent] the loop is never entered:
    [asyncio.Semaphore] raises [ValueError] first, so the enabled flag is
    not read, nothing is sent and nothing is printed, whatever follows. *)
Theorem negative_concurrency_raises_first st :
  (max_concurrent < 0)%Z ->
  reachable remote self max_concurrent w0 eps0 st ->
  st_main st = Raised (ValueError semaphore_message) /\
  st_trace st = [] /\ st_tasks st = [] /\
  calls (st_world st) = calls w0 /\ stdout (st_world st) = stdout w0.
Proof.
  intros Hneg Hst.
  assert (Hno : forall st', Reach st' -> st_main st' = AtLoop \/ st_main st' = AtGather -> False).
  { intros st' Hst' Hmain.
    destruct (semaphore_accounting remote self max_concurrent w0 eps0 st' Hst')
      as (_ & _ & _ & Hn & _).
    destruct (Hn Hneg). destruct Hmain; congruence. }
  pattern st. revert st Hst. apply reachable_cases.
  - simpl. assert (Hlt : (max_concurrent <? 0)%Z = true) by lia.
    rewrite Hlt. repeat split.
  - intros st f _ IH. exact IH.
  - intros st rand Hst _ Hmain. exfalso. apply (Hno st Hst). now left.
  - intros st e Hst _ Hmain _. exfalso. apply (Hno st Hst). now right.
  - intros st Hst _ Hmain _ _. exfalso. apply (Hno st Hst). now right.
  - intros st i t Hst _ Hmain _ _ _. exfalso. apply (Hno st Hst). now right.
  - intros st i t Hst _ Hmain _ _ _. exfalso. apply (Hno st Hst). now right.
  - intros st i t Hst _ Hmain _ _. exfalso. apply (Hno st Hst). now right.
Qed.

(** X14: the in-place shuffles never lose or duplicate an episode:
    [self.episode_ids] is at every moment a permutation of the configured
    list, and the tasks of the running iteration are its entries, one task
    per entry, in its order. *)
Theorem episodes_stay_a_permutation st :
  reachable remote self max_concurrent w0 eps0 st ->
  st_episodes st ≡ₚ eps0 /\
  length (st_episodes st) = length eps0 /\
  (st_main st = AtGather ->
   map t_episode (st_tasks st) = st_episodes st /\
   length (st_tasks st) = length eps0).
Proof.
  intros Hst.
  destruct (loop_shape remote self max_concurrent w0 eps0 st Hst) as (He & Ht & _).
  split; [exact He |]. split; [now rewrite He |].
  intros Hmain. split; [now apply Ht |].
  rewrite <- (length_map t_episode), (Ht Hmain). now rewrite He.
Qed.

Lemma played_are_configured st :
  Reach st -> Forall (fun ep => ep ∈ eps0) (all_puts (st_trace st)).
Proof.
  intros Hst. pattern st. revert st Hst. apply reachable_cases.
  - constructor.
  - intros st f _ IH. exact IH.
  - intros st rand _ IH _.
    destruct (loop_head_cases rand st) as [(e & w & ->) | [(w & ->) | (w & ->)]];
      simpl; exact IH.
  - intros st e _ IH _ _. exact IH.
  - intros st _ IH _ _ _. exact IH.
  - intros st i t _ IH _ _ _ _. exact IH.
  - intros st i t Hst IH Hmain Hlook _ _.
    destruct (loop_shape remote self max_concurrent w0 eps0 st Hst) as (He & Ht & _).
    assert (Hin : t_episode t ∈ eps0).
    { rewrite <- He, <- (Ht Hmain). apply list_elem_of_In, in_map, list_elem_of_In.
      now apply list_elem_of_lookup_2 with i. }
    destruct (enter_cases remote self i (t_episode t) st)
      as [[w ->] | [[w ->] | (w & e & ->)]]; simpl; now constructor.
  - intros st i t _ IH _ _ _. exact IH.
Qed.

(** X15: the loop talks to the service only to play configured episodes:
    every request sent since it started is a play command carrying the
    token and the device of [self] for an episode of the configured list.
    It never probes the token and never asks for a new one. *)
Theorem loop_sends_only_configured_plays st :
  reachable remote self max_concurrent w0 eps0 st ->
  exists played,
    calls (st_world st) = map (play_request self) played ++ calls w0 /\
    Forall (fun ep => ep ∈ eps0) played.
Proof.
  intros Hst. exists (all_puts (st_trace st)). split.
  - now apply (puts_are_requests remote self max_concurrent w0 eps0).
  - now apply played_are_configured.
Qed.

Lemma play_episode_body_file ep w :
  file (snd (play_episode_body remote self ep w)) = file w.
Proof.
  unfold play_episode_body, http, bind, lift, print, ret.
  destruct (remote (calls w) _) as [r|]; [| reflexivity].
  destruct (status_code r =? 204)%Z; [reflexivity |].
  destruct (response_json r); reflexivity.
Qed.

Lemma step_keeps_file a st st' :
  is_edit a = false ->
  step remote self a st = Some st' ->
  file (st_world st') = file (st_world st).
Proof.
  destruct a as [rand | i | f]; simpl; try discriminate; intros _.
  - unfold main_step, gather_resume.
    destruct (st_main st); try discriminate.
    + intros [= <-]. unfold loop_head.
      pose proof (is_enabled_keeps (st_world st)) as [_ Hf].
      destruct (is_enabled (st_world st)) as [[v|e] w]; simpl in *; [| exact Hf].
      destruct (truthy v); simpl; exact Hf.
    + destruct (st_failure st); [intros [= <-]; reflexivity |].
      destruct (forallb _ _); [intros [= <-]; reflexivity | discriminate].
  - unfold play_episode.
    destruct (st_main st); try discriminate.
    destruct (st_tasks st !! i) as [t|]; [| discriminate].
    assert (Henter : file (st_world (enter remote self i (t_episode t) st)) =
                     file (st_world st)).
    { unfold enter.
      pose proof (play_episode_body_file (t_episode t) (st_world st)) as Hf.
      destruct (play_episode_body remote self (t_episode t) (st_world st))
        as [[[]|e] w]; simpl in *; exact Hf. }
    destruct (t_pc t); try discriminate.
    + destruct (0 <? st_value st)%Z; intros [= <-]; [exact Henter | reflexivity].
    + destruct (0 <? st_value st)%Z; intros [= <-]. exact Henter.
    + intros [= <-]. reflexivity.
Qed.

(** X16: the playback loop never writes the credentials file (the token is
    neither refreshed nor persisted while playing): across any steps of
    [play_randomly] and its tasks the file is as it was. *)
Theorem loop_never_writes_file acts st st' :
  Forall (fun a => is_edit a = false) acts ->
  run remote self acts st = Some st' ->
  file (st_world st') = file (st_world st).
Proof.
  intros Hacts. revert st. induction Hacts as [|a acts Ha _ IH]; intros st; simpl.
  - now intros [= <-].
  - destruct (step remote self a st) as [st1|] eqn:Hstep; [| discriminate].
    intros Hrun. rewrite (IH _ Hrun). now apply (step_keeps_file a).
Qed.

Lemma returned_is_final a st st' :
  st_main st = Returned ->
  step remote self a st = Some st' ->
  st_main st' = Returned /\
  calls (st_world st') = calls (st_world st) /\
  stdout (st_world st') = stdout (st_world st) /\
  st_trace st' = st_trace st.
Proof.
  intros Hmain. destruct a as [rand | i | f]; simpl.
  - unfold main_step. now rewrite Hmain.
  - unfold play_episode. now rewrite Hmain.
  - intros [= <-]. simpl. repeat split. exact Hmain.
Qed.

Lemma returned_stays acts st st' :
  st_main st = Returned ->
  run remote self acts st = Some st' ->
  st_main st' = Returned /\
  calls (st_world st') = calls (st_world st) /\
  stdout (st_world st') = stdout (st_world st).
Proof.
  revert st. induction acts as [|a acts IH]; intros st Hmain; simpl.
  - intros [= <-]. auto.
  - destruct (step remote self a st) as [st1|] eqn:Hstep; [| discriminate].
    destruct (returned_is_final a st st1 Hmain Hstep) as (Hm & Hc & Ho & _).
    intros Hrun. destruct (IH st1 Hm Hrun) as (Hm' & Hc' & Ho').
    repeat split; congruence.
Qed.

(** X17: the kill switch works at the head of every iteration, not only the
    first: when the check of the enabled flag gives a value Python takes for
    false, [play_randomly] prints its message and returns, and whatever is
    tried afterwards nothing more is sent or printed. *)
Theorem kill_switch_every_iteration st rand v w :
  st_main st = AtLoop ->
  is_enabled (st_world st) = (Ok v, w) ->
  truthy v = false ->
  exists st',
    step remote self (Main rand) st = Some st' /\
    st_main st' = Returned /\
    calls (st_world st') = calls (st_world st) /\
    stdout (st_world st') = OutDisabled :: stdout w /\
    forall acts st'',
      run remote self acts st' = Some st'' ->
      st_main st'' = Returned /\
      calls (st_world st'') = calls (st_world st) /\
      stdout (st_world st'') = OutDisabled :: stdout w.
Proof.
  intros Hmain Hen Hv.
  pose proof (is_enabled_keeps (st_world st)) as [Hk _]. rewrite Hen in Hk. simpl in Hk.
  assert (Hstep : step remote self (Main rand) st =
                  Some (set_main Returned
                          (set_world {| file := file w; calls := calls w;
                                        stdout := OutDisabled :: stdout w |}
                             (log (EvCheck (st_cycle st)) st)))).
  { simpl. unfold main_step. rewrite Hmain. unfold loop_head. now rewrite Hen, Hv. }
  eexists. split; [exact Hstep |].
  split; [reflexivity |]. split; [exact Hk |]. split; [reflexivity |].
  intros acts st'' Hrun.
  pose proof (fun H => returned_stays acts _ st'' H Hrun) as Hstay.
  destruct (Hstay eq_refl) as (Hm & Hc & Ho).
  repeat split; [exact Hm | rewrite Hc; exact Hk | exact Ho].
Qed.

Lemma play_episode_keeps_failure i st st' e :
  st_failure st = Some e ->
  play_episode remote self i st = Some st' ->
  st_failure st' = Some e /\ st_main st' = st_main st.
Proof.
  intros Hfail. unfold play_episode.
  destruct (st_main st) eqn:Hmain; try discriminate.
  destruct (st_tasks st !! i) as [t|]; [| discriminate].
  assert (Henter : st_failure (enter remote self i (t_episode t) st) = Some e /\
                   st_main (enter remote self i (t_episode t) st) = AtGather).
  { destruct (enter_cases remote self i (t_episode t) st)
      as [[w ->] | [[w ->] | (w & e' & ->)]]; simpl; rewrite ?Hfail; auto. }
  destruct (t_pc t); try discriminate.
  - destruct (0 <? st_value st)%Z; intros [= <-]; [exact Henter | simpl; auto].
  - destruct (0 <? st_value st)%Z; intros [= <-]. exact Henter.
  - intros [= <-]. unfold wake, print. simpl. auto.
Qed.

(** X19: [play_randomly] raises the first exception of the iteration: once
    a task has raised [e], whatever the other tasks do afterwards (return,
    or raise in their turn) the exception kept for [gather] is still [e],
    and resuming [play_randomly] raises [e]. *)
Theorem first_exception_is_raised acts st st' e :
  st_main st = AtGather ->
  st_failure st = Some e ->
  Forall (fun a => is_main a = false) acts ->
  run remote self acts st = Some st' ->
  st_failure st' = Some e /\
  forall rand, step remote self (Main rand) st' = Some (set_main (Raised e) st').
Proof.
  intros Hmain Hfail Hacts. revert st Hmain Hfail.
  induction Hacts as [|a acts Ha _ IH]; intros st Hmain Hfail; simpl.
  - intros [= <-]. split; [exact Hfail |].
    intros rand. unfold main_step, gather_resume. now rewrite Hmain, Hfail.
  - destruct a as [rand | i | f]; simpl in *; try discriminate.
    + destruct (play_episode remote self i st) as [st1|] eqn:Hstep; [| discriminate].
      destruct (play_episode_keeps_failure i st st1 e Hfail Hstep) as [Hf1 Hm1].
      apply IH; congruence.
    + apply IH; assumption.
Qed.



Lemma remaining_bound ts : remaining ts <= 3 * length ts.
Proof.
  induction ts as [|t ts IH]; simpl; [lia |].
  destruct (t_pc t); simpl; lia.
Qed.

(** X20: with a semaphore of at least one unit an iteration ends under
    every schedule: its tasks are resumed at most three times the number of
    configured episodes (start, wait, wake-up), and once no task can be
    resumed every task has ended and [play_randomly] can be resumed, to
    leave [gather]. *)
Theorem iteration_terminates acts st st' :
  reachable remote self max_concurrent w0 eps0 st ->
  (1 <= max_concurrent)%Z ->
  st_main st = AtGather ->
  Forall (fun a => is_main a = false) acts ->
  run remote self acts st = Some st' ->
  task_moves acts <= 3 * length eps0 /\
  st_main st' = AtGather /\
  ((forall i, step remote self (Task i) st' = None) ->
   forallb (fun t => ended (t_pc t)) (st_tasks st') = true /\
   forall rand, exists st'',
     step remote self (Main rand) st' = Some st'' /\ st_main st'' <> AtGather).
Proof.
  intros Hst Hmax Hmain Hacts Hrun.
  destruct (task_moves_bounded remote self acts st st' Hacts Hrun) as (Hle & Hm & _).
  destruct (loop_shape remote self max_concurrent w0 eps0 st Hst) as (He & Ht & _).
  pose proof (remaining_bound (st_tasks st)) as Hb.
  assert (Hlen : length (st_tasks st) = length eps0).
  { rewrite <- (length_map t_episode), (Ht Hmain). now rewrite He. }
  assert (Hmain' : st_main st' = AtGather) by congruence.
  split; [lia |]. split; [exact Hmain' |].
  intros Hstuck.
  assert (Hst' : Reach st')
    by (now apply (reachable_run remote self max_concurrent w0 eps0 acts st)).
  assert (Hall : forallb (fun t => ended (t_pc t)) (st_tasks st') = true).
  { destruct (forallb (fun t => ended (t_pc t)) (st_tasks st')) eqn:Hall; [reflexivity |].
    destruct (no_deadlock remote self max_concurrent w0 eps0 st' Hst' Hmax Hmain' Hall)
      as (i & st'' & Hi).
    specialize (Hstuck i). simpl in Hstuck. congruence. }
  split; [exact Hall |].
  intros rand. simpl. unfold main_step, gather_resume. rewrite Hmain', Hall.
  destruct (st_failure st') as [e|]; eexists; (split; [reflexivity | discriminate]).
Qed.

Lemma holding_below_length ts i (t : task) :
  ts !! i = Some t ->
  holds (t_pc t) = 0%Z ->
  (holding ts + 1 <= Z.of_nat (length ts))%Z.
Proof.
  revert i. induction ts as [|u ts IH]; intros [|i] Hl Hh; simplify_eq/=.
  - rewrite Hh. clear Hh.
    assert (holding ts <= Z.of_nat (length ts))%Z; [| lia].
    clear. induction ts as [|u ts IH]; simpl; [lia |].
    destruct (t_pc u); simpl; lia.
  - specialize (IH i Hl Hh). destruct (t_pc u); simpl; lia.
Qed.

(** X21: with at least as many units as configured episodes (the default 5
    units for up to five episodes), no task ever waits for the semaphore:
    no task is ever suspended in [acquire], and a task that has not started
    always finds a unit. *)
Theorem no_waiting_when_enough_units st :
  (Z.of_nat (length eps0) <= max_concurrent)%Z ->
  reachable remote self max_concurrent w0 eps0 st ->
  Forall (fun t => t_pc t <> Waiting) (st_tasks st) /\
  (st_main st = AtGather ->
   forall i t, st_tasks st !! i = Some t -> t_pc t = Created ->
               (0 < st_value st)%Z).
Proof.
  intros Hmax Hst.
  assert (Hfree : forall st', Reach st' -> st_main st' = AtGather ->
            forall i t, st_tasks st' !! i = Some t -> t_pc t = Created ->
                        (0 < st_value st')%Z).
  { intros st' Hst' Hmain i t Hlook Hpc.
    destruct (semaphore_accounting remote self max_concurrent w0 eps0 st' Hst')
      as (Hsum & _).
    destruct (loop_shape remote self max_concurrent w0 eps0 st' Hst') as (He & Ht & _).
    assert (Hlen : length (st_tasks st') = length eps0).
    { rewrite <- (length_map t_episode), (Ht Hmain). now rewrite He. }
    pose proof (holding_below_length _ i t Hlook) as Hh.
    rewrite Hpc in Hh. specialize (Hh eq_refl). lia. }
  split; [| now apply Hfree].
  pattern st. revert st Hst. apply reachable_cases.
  - constructor.
  - intros st f _ IH. exact IH.
  - intros st rand _ IH _.
    destruct (loop_head_cases rand st) as [(e & w & ->) | [(w & ->) | (w & ->)]];
      simpl; try exact IH.
    generalize (shuffle rand (st_episodes st)). intros eps.
    induction eps as [|ep eps IHeps]; simpl; constructor; auto; discriminate.
  - intros st e _ IH _ _. exact IH.
  - intros st _ IH _ _ _. exact IH.
  - intros st i t Hst' _ Hmain Hlook Hpc Hval. exfalso.
    pose proof (Hfree st Hst' Hmain i t Hlook Hpc). lia.
  - intros st i t _ IH _ _ _ _.
    destruct (enter_cases remote self i (t_episode t) st)
      as [[w ->] | [[w ->] | (w & e & ->)]]; simpl;
      (apply Forall_alter; [exact IH | intros; discriminate]).
  - intros st i t _ IH _ _ _. unfold wake, print. simpl.
    apply Forall_alter; [exact IH | intros; discriminate].
Qed.

End LoopMore.

(** * The further properties at sample inputs *)

Lemma reachable_state_with max_concurrent remote acts :
  reachable remote sample_fetcher max_concurrent sample_world sample_episodes
            (state_with max_concurrent remote acts).
Proof.
  unfold state_with.
  destruct (run remote sample_fetcher acts _) as [st|] eqn:Hrun; simpl.
  - eapply reachable_run; [apply reach_start | exact Hrun].
  - apply reach_start.
Qed.

Lemma sample_doc_complete key :
  key ∈ required_fields -> missing_or_empty sample_doc key = false.
Proof.
  unfold required_fields. intros Hkey.
  repeat (apply elem_of_cons in Hkey as [-> | Hkey]); try reflexivity.
  now apply elem_of_nil in Hkey.
Qed.

(** X1 at a missing file. *)
Lemma load_client_credentials_unreadable_witness :
  load_client_credentials (world_of Missing) =
    (Raise (FileNotFoundError config_message), world_of Missing) /\
  init remote_granting (world_of Missing) =
    (Raise (FileNotFoundError config_message), world_of Missing).
Proof.
  exact (load_client_credentials_unreadable remote_granting (world_of Missing)
           (or_introl eq_refl)).
Defined.

(** X2 at the sample document. *)
Lemma load_client_credentials_succeeds_iff_witness :
  load_client_credentials sample_world = (Ok sample_self, sample_world).
Proof.
  destruct (load_client_credentials_succeeds_iff sample_world sample_doc eq_refl eq_refl)
    as (Hok & _ & _).
  rewrite (Hok sample_doc_complete). reflexivity.
Defined.

(** X4 at a file holding text that is not JSON. *)
Lemma get_access_token_unreadable_witness :
  get_access_token remote_granting sample_self (world_of (Garbage "{oops")) =
    (Raise (FileNotFoundError config_message), world_of (Garbage "{oops")).
Proof.
  exact (get_access_token_unreadable remote_granting sample_self
           (world_of (Garbage "{oops")) (or_intror (ex_intro _ "{oops" eq_refl))).
Defined.

(** X5 at the sample document, off line. *)
Lemma get_access_token_probe_network_error_witness :
  get_access_token remote_offline sample_self sample_world =
    (Raise ConnectionError,
     {| file := Document sample_doc; calls := [GetMe (JStr "old")]; stdout := [] |}).
Proof.
  exact (get_access_token_probe_network_error remote_offline sample_self sample_world
           sample_doc (JStr "old") eq_refl eq_refl eq_refl eq_refl eq_refl).
Defined.

(** X6 at a token endpoint that answers 200 with a body that is not JSON. *)
Lemma request_new_token_undecodable_body_witness :
  request_new_token remote_garbled sample_self sample_world =
    (Raise ResponseJSONDecodeError,
     {| file := Document sample_doc;
        calls := [PostToken (JStr "id") (JStr "secret")]; stdout := [] |}).
Proof.
  exact (request_new_token_undecodable_body remote_garbled sample_self sample_world
           {| status_code := 200; body := None |} eq_refl eq_refl).
Defined.

(** X7: the token "fresh", granted once, is accepted at the next start. *)
Lemma persisted_token_is_reused_witness :
  exists w1,
    request_new_token remote_granting sample_self sample_world = (Ok (JStr "fresh"), w1) /\
    get_access_token remote_accepting sample_self w1 =
      (Ok (JStr "fresh"),
       {| file := file w1; calls := GetMe (JStr "fresh") :: calls w1; stdout := stdout w1 |}).
Proof.
  destruct (persisted_token_is_reused remote_granting sample_self sample_world sample_doc
              {| status_code := 200;
                 body := Some (JObj {[ "access_token" := JStr "fresh" ]}) |}
              {[ "access_token" := JStr "fresh" ]} (JStr "fresh")
              eq_refl eq_refl eq_refl eq_refl eq_refl
              ltac:(reflexivity) eq_refl)
    as (w1 & Hnew & Hnext).
  exists w1. split; [exact Hnew |].
  exact (Hnext remote_accepting sample_self
           {| status_code := 200; body := Some (JObj {[ "id" := JStr "me" ]}) |}
           eq_refl eq_refl).
Defined.

(** X9 at a missing file. *)
Lemma replaced_document_fails_next_start_witness :
  exists w',
    update_credentials_file (JStr "new") (world_of Missing) = (Ok tt, w') /\
    load_client_credentials w' = (Raise (ValueError missing_message), w') /\
    is_enabled w' = (Ok (JBool false), w').
Proof.
  exact (replaced_document_fails_next_start (JStr "new") (world_of Missing)
           (or_introl eq_refl)).
Defined.

(** X10 at the sample document, the service accepting the cached token. *)
Lemma init_with_valid_cached_token_witness :
  init remote_accepting sample_world =
    (Ok {| self_credentials := sample_self; access_token := JStr "old" |},
     {| file := Document sample_doc; calls := [GetMe (JStr "old")]; stdout := [] |}).
Proof.
  exact (init_with_valid_cached_token remote_accepting sample_world sample_doc (JStr "old")
           {| status_code := 200; body := Some (JObj {[ "id" := JStr "me" ]}) |}
           eq_refl eq_refl sample_doc_complete eq_refl eq_refl eq_refl eq_refl).
Defined.

(** X11 in the middle of an iteration: two units out, none left. *)
Lemma semaphore_never_leaks_witness :
  let st := state_after remote_granting sample_schedule in
  st_value st = 0%Z /\ holding (st_tasks st) = 2%Z /\
  (0 <= st_value st <= 2)%Z /\
  st_value st = (2 - holding (st_tasks st))%Z.
Proof.
  intros st. split; [reflexivity |]. split; [reflexivity |].
  destruct (semaphore_never_leaks remote_granting sample_fetcher 2 sample_world
              sample_episodes st (reachable_state_after remote_granting sample_schedule)
              ltac:(discriminate))
    as (Hrange & Hsum & _).
  split; assumption.
Defined.

(** X12: with no unit the three tasks all wait, and nothing is sent. *)
Lemma zero_concurrency_plays_nothing_witness :
  let st := state_with 0 remote_granting [Main fixed_rand; Task 0; Task 1; Task 2] in
  map t_pc (st_tasks st) = [Waiting; Waiting; Waiting] /\
  calls (st_world st) = [] /\
  st_cycle st = 0.
Proof.
  intros st. split; [reflexivity |].
  destruct (zero_concurrency_plays_nothing remote_granting sample_fetcher 0 sample_world
              sample_episodes st eq_refl
              (reachable_state_with 0 remote_granting _))
    as (Hcalls & _ & Hcycle & _).
  split; [exact Hcalls | apply Hcycle; discriminate].
Defined.

(** X13 at [max_concurrent = -1]. *)
Lemma negative_concurrency_raises_first_witness :
  let st := state_with (-1) remote_granting [Edit (Document disabled_doc)] in
  st_main st = Raised (ValueError semaphore_message) /\
  st_trace st = [] /\ st_tasks st = [] /\
  calls (st_world st) = [] /\ stdout (st_world st) = [].
Proof.
  exact (negative_concurrency_raises_first remote_granting sample_fetcher (-1) sample_world
           sample_episodes _ eq_refl
           (reachable_state_with (-1) remote_granting [Edit (Document disabled_doc)])).
Defined.

(** X14 in the second iteration. *)
Lemma episodes_stay_a_permutation_witness :
  let st := state_after remote_granting sample_two_cycles in
  st_episodes st ≡ₚ sample_episodes /\
  length (st_episodes st) = 3 /\
  length (st_tasks st) = 3.
Proof.
  intros st.
  destruct (episodes_stay_a_permutation remote_granting sample_fetcher 2 sample_world
              sample_episodes st (reachable_state_after remote_granting sample_two_cycles))
    as (Hperm & Hlen & Htasks).
  split; [exact Hperm |]. split; [exact Hlen |].
  exact (proj2 (Htasks eq_refl)).
Defined.

(** X15 in the second iteration: four play commands so far. *)
Lemma loop_sends_only_configured_plays_witness :
  let st := state_after remote_granting sample_two_cycles in
  length (calls (st_world st)) = 4 /\
  exists played,
    calls (st_world st) = map (play_request sample_fetcher) played ++ [] /\
    Forall (fun ep => ep ∈ sample_episodes) played.
Proof.
  intros st. split; [reflexivity |].
  exact (loop_sends_only_configured_plays remote_granting sample_fetcher 2 sample_world
           sample_episodes st (reachable_state_after remote_granting sample_two_cycles)).
Defined.

(** X16 across the sample schedule. *)
Lemma loop_never_writes_file_witness :
  file (st_world (state_after remote_granting sample_schedule)) = Document sample_doc.
Proof.
  apply (loop_never_writes_file remote_granting sample_fetcher sample_schedule
           (play_randomly 2 sample_world sample_episodes)
           (state_after remote_granting sample_schedule)).
  - unfold sample_schedule. repeat constructor.
  - vm_compute. reflexivity.
Defined.

(** X17 at the head of the second iteration, the file edited meanwhile. *)
Lemma kill_switch_every_iteration_witness :
  let st := state_after remote_granting
              (sample_schedule ++
               [Task 1; Task 2; Main fixed_rand; Edit (Document disabled_doc)]) in
  st_cycle st = 1 /\
  exists st',
    step remote_granting sample_fetcher (Main fixed_rand) st = Some st' /\
    st_main st' = Returned /\
    length (calls (st_world st')) = 3.
Proof.
  intros st. split; [vm_compute; reflexivity |].
  assert (Hloop : st_main st = AtLoop) by (vm_compute; reflexivity).
  assert (Hflag : is_enabled (st_world st) = (Ok (JBool false), st_world st))
    by (vm_compute; reflexivity).
  destruct (kill_switch_every_iteration remote_granting sample_fetcher st fixed_rand
              (JBool false) (st_world st) Hloop Hflag eq_refl)
    as (st' & Hstep & Hmain & Hcalls & _).
  exists st'. split; [exact Hstep |]. split; [exact Hmain |].
  rewrite Hcalls. vm_compute. reflexivity.
Defined.


(** X19: a second task raises after the first; the first error stays. *)
Lemma first_exception_is_raised_witness :
  let st := state_after remote_gateway [Main fixed_rand; Task 0] in
  let st' := state_after remote_gateway [Main fixed_rand; Task 0; Task 1] in
  map t_pc (st_tasks st') =
    [Failed ResponseJSONDecodeError; Failed ResponseJSONDecodeError; Created] /\
  st_failure st' = Some ResponseJSONDecodeError.
Proof.
  intros st st'. split; [reflexivity |].
  apply (first_exception_is_raised remote_gateway sample_fetcher [Task 1] st st'
           ResponseJSONDecodeError eq_refl eq_refl).
  - repeat constructor.
  - vm_compute. reflexivity.
Defined.

(** X20 along a whole iteration of the sample: seven resumptions for three
    episodes, after which every task has ended. *)
Lemma iteration_terminates_witness :
  let acts := [Task 0; Task 1; Task 2; Task 0; Task 2; Task 1; Task 2] in
  let st' := state_after remote_granting (Main fixed_rand :: acts) in
  task_moves acts <= 3 * length sample_episodes /\
  forallb (fun t => ended (t_pc t)) (st_tasks st') = true.
Proof.
  intros acts st'.
  assert (Hrun : run remote_granting sample_fetcher acts
                     (state_after remote_granting [Main fixed_rand]) = Some st')
    by (vm_compute; reflexivity).
  destruct (iteration_terminates remote_granting sample_fetcher 2 sample_world
              sample_episodes acts
              (state_after remote_granting [Main fixed_rand]) st'
              (reachable_state_after remote_granting [Main fixed_rand])
              ltac:(discriminate) eq_refl ltac:(repeat constructor) Hrun)
    as (Hmoves & _ & Hend).
  split; [exact Hmoves |].
  apply Hend. intros i. destruct i as [|[|[|i]]]; vm_compute; reflexivity.
Defined.

(** X21 with five units for three episodes: all three asleep at once. *)
Lemma no_waiting_when_enough_units_witness :
  let st := state_with 5 remote_granting [Main fixed_rand; Task 0; Task 1; Task 2] in
  map t_pc (st_tasks st) = [Sleeping; Sleeping; Sleeping] /\
  Forall (fun t => t_pc t <> Waiting) (st_tasks st).
Proof.
  intros st. split; [reflexivity |].
  apply (no_waiting_when_enough_units remote_granting sample_fetcher 5 sample_world
           sample_episodes st ltac:(discriminate)
           (reachable_state_with 5 remote_granting _)).
Defined.

